(** * Movie_Night: the room session coordinator

    A shallow embedding of the server side of the repository, which the
    source tree carries after the page component in
    src/client/src/pages/Room.tsx: the in-memory room store ([MemStorage],
    the module the routes import as ./storage), the connection registry
    ([clients]) with [broadcastToRoom], the room-creation endpoint and the
    WebSocket [message] and [close] handlers of [registerRoutes]; the row
    types are those of the schema module (src/unnamed/part_000).  The
    properties of the room session protocol that the specification states
    about them follow the model.

    Modelling conventions.
    - A value read from a JSON payload is a [jsval]: the JavaScript
      primitives, with numbers restricted to the integers that JavaScript
      prints digit by digit (below 10^21 in absolute value).  Payload fields
      that are themselves objects or arrays are outside the model.
    - [new Date()] reads the instant [now] of the environment of the event
      being handled; [nanoid] results are inputs of the operation that
      draws them.
    - In [step] and [run] every handler runs to its end before the next
      event is handled.  The source suspends a handler at each [await];
      the leave path is modelled a second time, await by await
      ([leave_enter], [leave_resume], [leave_turn]), for what happens when
      two of its invocations overlap.
    - [ws.send] is recorded as a pair of the socket and the event object
      that is serialised onto it, in the order of the calls.
    - GET /api/rooms/:roomId only reads the store; it is [get_room], with
      the rest of the program that the specification's properties do not
      need, in the second part of the model. *)

From stdpp Require Import gmap strings list fin_maps pretty sorting.

Local Open Scope string_scope.
Local Open Scope list_scope.
Local Open Scope Z_scope.

(** ** JavaScript values *)

Inductive jsval : Type :=
  | VUndefined
  | VNull
  | VBool (b : bool)
  | VNum (n : Z)
  | VStr (s : string).

Global Instance jsval_eq_dec : EqDecision jsval.
Proof. solve_decision. Defined.

Global Instance jsval_countable : Countable jsval.
Proof.
  refine (inj_countable'
    (λ v, match v with
          | VUndefined => inl (inl ())
          | VNull => inl (inr ())
          | VBool b => inr (inl b)
          | VNum n => inr (inr (inl n))
          | VStr s => inr (inr (inr s))
          end)
    (λ c, match c with
          | inl (inl _) => VUndefined
          | inl (inr _) => VNull
          | inr (inl b) => VBool b
          | inr (inr (inl n)) => VNum n
          | inr (inr (inr s)) => VStr s
          end) _).
  by intros [].
Defined.

(** [String(v)], as a template literal [`${v} ...`] computes it.  A number
    is printed digit by digit, as JavaScript does below 10^21 in absolute
    value; from there on it prints the exponent form, which is outside the
    model. *)
Definition to_string (v : jsval) : string :=
  match v with
  | VUndefined => "undefined"
  | VNull => "null"
  | VBool true => "true"
  | VBool false => "false"
  | VNum n => pretty n
  | VStr s => s
  end.

(** The values that [!v] does not negate to [true]. *)
Definition truthy (v : jsval) : bool :=
  match v with
  | VUndefined | VNull => false
  | VBool b => b
  | VNum n => negb (n =? 0)
  | VStr s => negb (String.eqb s "")
  end.

(** A parsed JSON object, as far as property reads go: a missing property
    reads as [undefined]. *)
Abbreviation jsobject := (gmap string jsval).

Definition field (name : string) (o : jsobject) : jsval :=
  default VUndefined (o !! name).

(** What a destructuring pattern [const { a, b } = x] is applied to:
    [NoPayload] stands for [undefined] and [null], on which it throws a
    [TypeError]; any other value destructures like the object of its own
    properties. *)
Inductive Payload : Type :=
  | NoPayload
  | Fields (o : jsobject).

Definition destructure (p : Payload) : option jsobject :=
  match p with
  | NoPayload => None
  | Fields o => Some o
  end.

(** ** The schema: the rows of the store *)

(** Milliseconds since the epoch, the value of a [Date]. *)
Abbreviation Date := Z.

Record Room : Type := mkRoom {
  room_id : string;
  room_videoUrl : jsval;
  room_hostId : jsval;
  room_createdAt : Date;
}.

Record Participant : Type := mkParticipant {
  part_roomId : jsval;
  part_username : jsval;
  part_id : Z;
  part_joinedAt : Date;
}.

Record Message : Type := mkMessage {
  msg_roomId : jsval;
  msg_username : jsval;
  msg_content : jsval;
  msg_type : string;
  msg_id : Z;
  msg_timestamp : Date;
}.

Record PlaybackState : Type := mkPlaybackState {
  pb_roomId : jsval;
  pb_isPlaying : jsval;
  pb_currentTime : jsval;
  pb_lastUpdated : Date;
}.

Record InsertMessage : Type := mkInsertMessage {
  im_roomId : jsval;
  im_username : jsval;
  im_content : jsval;
  im_type : string;
}.

Global Instance Room_eq_dec : EqDecision Room.
Proof. solve_decision. Defined.
Global Instance Participant_eq_dec : EqDecision Participant.
Proof. solve_decision. Defined.
Global Instance Message_eq_dec : EqDecision Message.
Proof. solve_decision. Defined.
Global Instance PlaybackState_eq_dec : EqDecision PlaybackState.
Proof. solve_decision. Defined.

(** ** The store: MemStorage

    The store behind the [IStorage] interface that is part of the program
    itself: [DatabaseStorage] hands every method to SQL queries that run in
    the database.  The user table and its three methods, which no route
    and no socket handler calls, come with [UserTable] further down. *)

Record MemStorage : Type := mkMemStorage {
  rooms : gmap jsval Room;
  participants : gmap jsval (list Participant);
  messages : gmap jsval (list Message);
  playbackStates : gmap jsval PlaybackState;
  participantId : Z;
  messageId : Z;
}.

(** The constructor. *)
Definition MemStorage_new : MemStorage :=
  {| rooms := ∅; participants := ∅; messages := ∅; playbackStates := ∅;
     participantId := 1; messageId := 1 |}.

(** [createRoom]; [id] is the result of [nanoid(6)]. *)
Definition createRoom (id : string) (now : Date) (videoUrl hostId : jsval)
    (s : MemStorage) : Room * MemStorage :=
  let newRoom := mkRoom id videoUrl hostId now in
  (newRoom,
   {| rooms := <[VStr id := newRoom]> (rooms s);
      participants := <[VStr id := []]> (participants s);
      messages := <[VStr id := []]> (messages s);
      playbackStates :=
        <[VStr id := mkPlaybackState (VStr id) (VBool false) (VNum 0) now]>
          (playbackStates s);
      participantId := participantId s;
      messageId := messageId s |}).

Definition getRoom (id : jsval) (s : MemStorage) : option Room :=
  rooms s !! id.

Definition getParticipants (roomId : jsval) (s : MemStorage) : list Participant :=
  default [] (participants s !! roomId).

Definition addParticipant (now : Date) (roomId username : jsval)
    (s : MemStorage) : Participant * MemStorage :=
  let id := participantId s in
  let newParticipant := mkParticipant roomId username id now in
  let roomParticipants := default [] (participants s !! roomId) in
  (newParticipant,
   {| rooms := rooms s;
      participants := <[roomId := roomParticipants ++ [newParticipant]]> (participants s);
      messages := messages s;
      playbackStates := playbackStates s;
      participantId := id + 1;
      messageId := messageId s |}).

Definition removeParticipant (roomId username : jsval) (s : MemStorage) : MemStorage :=
  let roomParticipants := default [] (participants s !! roomId) in
  let updatedParticipants :=
    filter (λ p, part_username p ≠ username) roomParticipants in
  {| rooms := rooms s;
     participants := <[roomId := updatedParticipants]> (participants s);
     messages := messages s;
     playbackStates := playbackStates s;
     participantId := participantId s;
     messageId := messageId s |}.

Definition getMessages (roomId : jsval) (s : MemStorage) : list Message :=
  default [] (messages s !! roomId).

Definition addMessage (now : Date) (message : InsertMessage)
    (s : MemStorage) : Message * MemStorage :=
  let id := messageId s in
  let newMessage :=
    mkMessage (im_roomId message) (im_username message) (im_content message)
              (im_type message) id now in
  let roomMessages := default [] (messages s !! im_roomId message) in
  (newMessage,
   {| rooms := rooms s;
      participants := participants s;
      messages := <[im_roomId message := roomMessages ++ [newMessage]]> (messages s);
      playbackStates := playbackStates s;
      participantId := participantId s;
      messageId := id + 1 |}).

Definition getPlaybackState (roomId : jsval) (s : MemStorage) : option PlaybackState :=
  playbackStates s !! roomId.

Definition updatePlaybackState (now : Date) (roomId isPlaying currentTime : jsval)
    (s : MemStorage) : PlaybackState * MemStorage :=
  let updatedState := mkPlaybackState roomId isPlaying currentTime now in
  (updatedState,
   {| rooms := rooms s;
      participants := participants s;
      messages := messages s;
      playbackStates := <[roomId := updatedState]> (playbackStates s);
      participantId := participantId s;
      messageId := messageId s |}).

(** ** The routes: the connection registry *)

(** A [WebSocket] object, by identity. *)
Abbreviation socket := nat.

(** What the [connection] callback closes over: the identifier drawn by
    [nanoid()] and the socket. *)
Record Conn : Type := mkConn {
  clientId : string;
  ws : socket;
}.

Record Client : Type := mkClient {
  client_ws : socket;
  client_roomId : jsval;
  client_username : jsval;
}.

Global Instance Client_eq_dec : EqDecision Client.
Proof. solve_decision. Defined.

(** [clients] is a JavaScript [Map], iterated in insertion order: an
    association list without repeated keys, oldest key first. *)
Abbreviation Registry := (list (string * Client)).

Fixpoint clients_get (id : string) (m : Registry) : option Client :=
  match m with
  | [] => None
  | (k, c) :: m' => if decide (k = id) then Some c else clients_get id m'
  end.

(** [Map.prototype.set]: the value of a present key is replaced where it
    stands, a new key goes to the end. *)
Fixpoint clients_set (id : string) (c : Client) (m : Registry) : Registry :=
  match m with
  | [] => [(id, c)]
  | (k, c') :: m' =>
      if decide (k = id) then (k, c) :: m' else (k, c') :: clients_set id c m'
  end.

Definition clients_delete (id : string) (m : Registry) : Registry :=
  filter (λ kc, kc.1 ≠ id) m.

(** The frames the server writes on a socket. *)
Inductive ServerEvent : Type :=
  | EvError (message : string)
  | EvVideoState (payload : option PlaybackState)
  | EvChatMessage (payload : Message)
  | EvNewPeer (peerId username : jsval)
  | EvPeerLeft (username : jsval)
  | EvJoinRoomSuccess (room : Room) (participants : list Participant)
                      (messages : list Message).

Global Instance ServerEvent_eq_dec : EqDecision ServerEvent.
Proof. solve_decision. Defined.

(** One call of [ws.send]. *)
Abbreviation Send := (socket * ServerEvent)%type.

(** What a handler reads from outside the program while it runs: the clock
    and, for each socket, whether [readyState] is [WebSocket.OPEN]. *)
Record Env : Type := mkEnv {
  now : Date;
  isOpen : socket → bool;
}.

(** The condition of the loop of [broadcastToRoom]; [excludeClient] is
    [None] where the call site passes no third argument. *)
Definition receives (env : Env) (roomId : jsval) (excludeClient : option socket)
    (client : Client) : bool :=
  bool_decide (client_roomId client = roomId)
  && bool_decide (Some (client_ws client) ≠ excludeClient)
  && isOpen env (client_ws client).

Definition broadcastToRoom (env : Env) (clients : Registry) (roomId : jsval)
    (message : ServerEvent) (excludeClient : option socket) : list Send :=
  omap (λ kc, if receives env roomId excludeClient kc.2
              then Some (client_ws kc.2, message) else None) clients.

(** ** The routes: the handlers *)

Record State : Type := mkState {
  storage : MemStorage;
  clients : Registry;
}.

Definition State_new : State := mkState MemStorage_new [].

(** *** POST /api/rooms *)

Inductive Response : Type :=
  | Created (roomId : string)
  | BadRequest (message : string)
  | ServerError (message : string).

(** [body] is [req.body]; [id] is what [nanoid(6)] returns inside
    [createRoom].  Destructuring a missing body throws into the [catch]. *)
Definition post_rooms (env : Env) (id : string) (body : Payload)
    (st : State) : State * Response :=
  match destructure body with
  | None => (st, ServerError "Failed to create room")
  | Some o =>
      let username := field "username" o in
      let videoUrl := field "videoUrl" o in
      if negb (truthy username) || negb (truthy videoUrl)
      then (st, BadRequest "Username and video URL are required")
      else
        let '(room, s1) := createRoom id (now env) videoUrl username (storage st) in
        let '(_, s2) := addParticipant (now env) (VStr (room_id room)) username s1 in
        let '(_, s3) :=
          addMessage (now env)
            (mkInsertMessage (VStr (room_id room)) (VStr "System")
               (VStr (to_string username +:+ " created the room")) "system") s2 in
        (mkState s3 (clients st), Created (room_id room))
  end.

(** *** The [message] handler, case by case *)

(** [case 'join_room'], after the payload is destructured.  The inner
    [catch] is not modelled: no method of [MemStorage] throws. *)
Definition join_room (env : Env) (conn : Conn) (o : jsobject)
    (st : State) : State * list Send :=
  let roomId := field "roomId" o in
  let username := field "username" o in
  let peerId := field "peerId" o in
  let clients1 :=
    clients_set (clientId conn) (mkClient (ws conn) roomId username) (clients st) in
  match getRoom roomId (storage st) with
  | None =>
      (mkState (storage st) clients1, [(ws conn, EvError "Room not found")])
  | Some room =>
      let '(_, s1) := addParticipant (now env) roomId username (storage st) in
      let '(systemMessage, s2) :=
        addMessage (now env)
          (mkInsertMessage roomId (VStr "System")
             (VStr (to_string username +:+ " joined the room")) "system") s1 in
      let playbackState := getPlaybackState roomId s2 in
      let participants := getParticipants roomId s2 in
      (mkState s2 clients1,
       [(ws conn, EvVideoState playbackState)]
       ++ broadcastToRoom env clients1 roomId (EvChatMessage systemMessage) None
       ++ broadcastToRoom env clients1 roomId (EvNewPeer peerId username)
            (Some (ws conn))
       ++ [(ws conn, EvJoinRoomSuccess room participants (getMessages roomId s2))])
  end.

(** The body shared, line for line, by [case 'leave_room'] and the [close]
    handler. *)
Definition leave (env : Env) (conn : Conn) (st : State) : State * list Send :=
  match clients_get (clientId conn) (clients st) with
  | None => (st, [])
  | Some client =>
      let roomId := client_roomId client in
      let username := client_username client in
      let s1 := removeParticipant roomId username (storage st) in
      let '(systemMessage, s2) :=
        addMessage (now env)
          (mkInsertMessage roomId (VStr "System")
             (VStr (to_string username +:+ " left the room")) "system") s1 in
      (mkState s2 (clients_delete (clientId conn) (clients st)),
       broadcastToRoom env (clients st) roomId (EvChatMessage systemMessage) None
       ++ broadcastToRoom env (clients st) roomId (EvPeerLeft username) None)
  end.

(** [case 'chat_message']. *)
Definition chat_message (env : Env) (o : jsobject) (st : State) : State * list Send :=
  let roomId := field "roomId" o in
  let username := field "username" o in
  let content := field "content" o in
  let '(newMessage, s1) :=
    addMessage (now env) (mkInsertMessage roomId username content "user")
      (storage st) in
  (mkState s1 (clients st),
   broadcastToRoom env (clients st) roomId (EvChatMessage newMessage) None).

(** [case 'video_state']. *)
Definition video_state (env : Env) (conn : Conn) (o : jsobject)
    (st : State) : State * list Send :=
  let roomId := field "roomId" o in
  let isPlaying := field "isPlaying" o in
  let currentTime := field "currentTime" o in
  let '(updatedState, s1) :=
    updatePlaybackState (now env) roomId isPlaying currentTime (storage st) in
  (mkState s1 (clients st),
   broadcastToRoom env (clients st) roomId (EvVideoState (Some updatedState))
     (Some (ws conn))).

(** *** The [message] handler *)

(** The outcome of [JSON.parse(data.toString())] followed by the reads of
    [message.type] and [message.payload].  [Unparsable] covers the inputs
    on which one of the two throws before anything else happens: text that
    is not JSON, and the JSON text [null].  A JSON scalar or array, which
    has neither property, is [Parsed VUndefined NoPayload]. *)
Inductive Frame : Type :=
  | Unparsable
  | Parsed (type : jsval) (payload : Payload).

(** The [try] block; [None] is a thrown exception. *)
Definition on_message_try (env : Env) (conn : Conn) (data : Frame)
    (st : State) : option (State * list Send) :=
  match data with
  | Unparsable => None
  | Parsed type payload =>
      if decide (type = VStr "join_room") then
        o ← destructure payload; Some (join_room env conn o st)
      else if decide (type = VStr "leave_room") then
        Some (leave env conn st)
      else if decide (type = VStr "chat_message") then
        o ← destructure payload; Some (chat_message env o st)
      else if decide (type = VStr "video_state") then
        o ← destructure payload; Some (video_state env conn o st)
      else Some (st, [])
  end.

(** The [catch] logs and returns. *)
Definition on_message (env : Env) (conn : Conn) (data : Frame)
    (st : State) : State * list Send :=
  default (st, []) (on_message_try env conn data st).

(** *** The [close] handler *)
Definition on_close (env : Env) (conn : Conn) (st : State) : State * list Send :=
  leave env conn st.

(** *** The leave path, await by await

    [leave] is the body run in one piece.  The source awaits the store
    twice on the way, at [await storage.removeParticipant(...)] and at
    [await storage.addMessage(...)].  A method of [MemStorage] contains no
    [await] of its own: it runs in full when it is called, and the caller
    is then suspended on its promise.  What is left of the handler is a job
    that the event loop resumes once the code then running has returned,
    jobs being served first in, first out.  So the handler runs in three
    pieces: up to the first [await], from there to the second, and from
    there to the end, where alone the registry entry is deleted. *)

(** A suspended leave, with the variables it closes over; [env] is the
    environment of the event that entered it. *)
Inductive LeaveTask : Type :=
  | AwaitRemoveParticipant (env : Env) (conn : Conn) (roomId username : jsval)
  | AwaitAddMessage (env : Env) (conn : Conn) (roomId username : jsval)
                    (systemMessage : Message).

(** From the entry of the handler to its first [await]: the guard on the
    registry entry, and the call of [removeParticipant]. *)
Definition leave_enter (env : Env) (conn : Conn)
    (st : State) : State * option LeaveTask :=
  match clients_get (clientId conn) (clients st) with
  | None => (st, None)
  | Some client =>
      let roomId := client_roomId client in
      let username := client_username client in
      (mkState (removeParticipant roomId username (storage st)) (clients st),
       Some (AwaitRemoveParticipant env conn roomId username))
  end.

(** From one [await] to the next, or to the end of the handler. *)
Definition leave_resume (t : LeaveTask)
    (st : State) : State * option LeaveTask * list Send :=
  match t with
  | AwaitRemoveParticipant env conn roomId username =>
      let '(systemMessage, s2) :=
        addMessage (now env)
          (mkInsertMessage roomId (VStr "System")
             (VStr (to_string username +:+ " left the room")) "system")
          (storage st) in
      (mkState s2 (clients st),
       Some (AwaitAddMessage env conn roomId username systemMessage), [])
  | AwaitAddMessage env conn roomId username systemMessage =>
      (mkState (storage st) (clients_delete (clientId conn) (clients st)),
       None,
       broadcastToRoom env (clients st) roomId (EvChatMessage systemMessage) None
       ++ broadcastToRoom env (clients st) roomId (EvPeerLeft username) None)
  end.

(** How many times a suspended leave is still to be resumed. *)
Definition resumptions_left (t : LeaveTask) : nat :=
  match t with
  | AwaitRemoveParticipant _ _ _ _ => 2
  | AwaitAddMessage _ _ _ _ _ => 1
  end.

(** The job queue, served first in, first out, for [n] resumptions: the
    job at the head is resumed and what is left of it goes to the back.
    The result carries the jobs still queued. *)
Fixpoint run_jobs (n : nat) (queue : list LeaveTask)
    (st : State) : State * list LeaveTask * list Send :=
  match n, queue with
  | S n', t :: queue' =>
      let '(st1, next, out1) := leave_resume t st in
      let '(st2, rest, out2) := run_jobs n' (queue' ++ option_list next) st1 in
      (st2, rest, out1 ++ out2)
  | _, _ => (st, queue, [])
  end.

(** The leave path entered for each of [calls] in turn, each up to its
    first [await], before any job is served. *)
Fixpoint leave_enter_all (calls : list (Env * Conn))
    (st : State) : State * list LeaveTask :=
  match calls with
  | [] => (st, [])
  | (env, conn) :: calls' =>
      let '(st1, t) := leave_enter env conn st in
      let '(st2, queue) := leave_enter_all calls' st1 in
      (st2, option_list t ++ queue)
  end.

(** One turn of the event loop in which the leave path is entered for
    each of [calls]: the [leave_room] frames that one read of the socket
    hands to the [message] handler one after the other, or a [leave_room]
    frame and the [close] that reaches the server while the first handler
    is still suspended.  The jobs are then served until none is left. *)
Definition leave_turn (calls : list (Env * Conn))
    (st : State) : State * list Send :=
  let '(st1, queue) := leave_enter_all calls st in
  let '(st2, _, out) :=
    run_jobs (sum_list_with resumptions_left queue) queue st1 in
  (st2, out).

(** ** The coordinator as a transition system *)

Inductive Event : Type :=
  | PostRooms (id : string) (body : Payload)
  | WsMessage (conn : Conn) (data : Frame)
  | WsClose (conn : Conn).

Definition step (env : Env) (ev : Event) (st : State) : State * list Send :=
  match ev with
  | PostRooms id body => ((post_rooms env id body st).1, [])
  | WsMessage conn data => on_message env conn data st
  | WsClose conn => on_close env conn st
  end.

(** A run: each event is handled in the environment it arrives in. *)
Fixpoint run (evs : list (Env * Event)) (st : State) : State * list Send :=
  match evs with
  | [] => (st, [])
  | (env, ev) :: evs' =>
      let '(st1, out1) := step env ev st in
      let '(st2, out2) := run evs' st1 in
      (st2, out1 ++ out2)
  end.

(** The client-side frames of the protocol, well formed. *)
Definition join_room_frame (roomId username peerId : jsval) : Frame :=
  Parsed (VStr "join_room")
    (Fields {[ "roomId" := roomId; "username" := username; "peerId" := peerId ]}).

Definition leave_room_frame (roomId username : jsval) : Frame :=
  Parsed (VStr "leave_room")
    (Fields {[ "roomId" := roomId; "username" := username ]}).

Definition chat_message_frame (roomId username content : jsval) : Frame :=
  Parsed (VStr "chat_message")
    (Fields {[ "roomId" := roomId; "username" := username; "content" := content ]}).

Definition video_state_frame (roomId isPlaying currentTime : jsval) : Frame :=
  Parsed (VStr "video_state")
    (Fields {[ "roomId" := roomId; "isPlaying" := isPlaying;
               "currentTime" := currentTime ]}).

(** * The vocabulary of the properties *)

(** ** Rooms and their members *)

(** The connected members of a room: the sockets of the registry entries
    recorded for the room whose channel is open, in registry order. *)
Definition members (env : Env) (m : Registry) (roomId : jsval) : list socket :=
  (λ kc, client_ws kc.2)
    <$> filter (λ kc, client_roomId kc.2 = roomId ∧ isOpen env (client_ws kc.2) = true) m.

(** The usernames [getParticipants] shows for a room. *)
Definition usernames (roomId : jsval) (st : State) : list jsval :=
  part_username <$> getParticipants roomId (storage st).

(** The row a join inserts and the system message it appends. *)
Definition join_row (env : Env) (roomId username : jsval)
    (s : MemStorage) : Participant :=
  mkParticipant roomId username (participantId s) (now env).

Definition join_announcement (env : Env) (roomId username : jsval)
    (s : MemStorage) : Message :=
  mkMessage roomId (VStr "System")
    (VStr (to_string username +:+ " joined the room")) "system"
    (messageId s) (now env).

(** The message a [chat_message] frame appends. *)
Definition chat_row (env : Env) (roomId username content : jsval)
    (s : MemStorage) : Message :=
  mkMessage roomId username content "user" (messageId s) (now env).

(** ** Leaving *)

(** The two ways a connection leaves. *)
Inductive LeavePath : Type :=
  | ExplicitLeave (payload : Payload)
  | TransportClose.

Definition leave_event (conn : Conn) (p : LeavePath) : Event :=
  match p with
  | ExplicitLeave payload => WsMessage conn (Parsed (VStr "leave_room") payload)
  | TransportClose => WsClose conn
  end.

(** ** Malformed and unrecognized frames *)

(** The client-to-server types of the protocol. *)
Definition recognized_types : list jsval :=
  [VStr "join_room"; VStr "leave_room"; VStr "chat_message"; VStr "video_state"].

(** The payload fields the protocol requires for each type. *)
Definition required_fields (type : jsval) : list string :=
  if decide (type = VStr "join_room") then ["roomId"; "username"; "peerId"]
  else if decide (type = VStr "leave_room") then ["roomId"; "username"]
  else if decide (type = VStr "chat_message") then ["roomId"; "username"; "content"]
  else if decide (type = VStr "video_state") then ["roomId"; "isPlaying"; "currentTime"]
  else [].

Definition has_field (p : Payload) (name : string) : Prop :=
  match p with
  | NoPayload => False
  | Fields o => is_Some (o !! name)
  end.

(** A frame is malformed when it does not parse or lacks a field that its
    type requires. *)
Definition malformed (data : Frame) : Prop :=
  match data with
  | Unparsable => True
  | Parsed type payload =>
      ∃ name, name ∈ required_fields type ∧ ¬ has_field payload name
  end.

Definition unrecognized (data : Frame) : Prop :=
  match data with
  | Unparsable => False
  | Parsed type _ => type ∉ recognized_types
  end.

(** Frames on which the handler throws before it has done anything: text
    that does not parse, and a frame of a type whose case destructures the
    payload when there is no payload to destructure. *)
Definition throws_at_once (data : Frame) : Prop :=
  match data with
  | Unparsable => True
  | Parsed type payload =>
      payload = NoPayload
      ∧ type ∈ [VStr "join_room"; VStr "chat_message"; VStr "video_state"]
  end.

(** ** The message log over time *)

(** The timestamps of a room's log, oldest message first. *)
Definition log_times (roomId : jsval) (st : State) : list Date :=
  msg_timestamp <$> getMessages roomId (storage st).

(** [nanoid(6)] hands [createRoom] an id under which no log is kept. *)
Definition fresh_id (ev : Event) (st : State) : Prop :=
  match ev with
  | PostRooms id _ => messages (storage st) !! VStr id = None
  | _ => True
  end.

(** The states the server passes through from start-up, with the instant
    of the event handled last: the clock never runs backwards and room ids
    are fresh. *)
Inductive reachable : Date → State → Prop :=
  | reachable_init t : reachable t State_new
  | reachable_step t st env ev :
      reachable t st → t ≤ now env → fresh_id ev st →
      reachable (now env) (step env ev st).1.

(** What one event does to the log of one room. *)
Definition appends_at_most_one (t : Date) (log log' : list Message) : Prop :=
  log' = log ∨ ∃ m, log' = log ++ [m] ∧ msg_timestamp m = t.

(** Sorted, with every timestamp at or before [t]. *)
Definition log_ok (t : Date) (times : list Date) : Prop :=
  Sorted Z.le times ∧ Forall (λ t', t' ≤ t) times.

(** ** Joining and leaving a room, as the specification words it *)

(** The join and leave operations on one room. *)
Inductive RoomOp : Type :=
  | OpJoin (conn : Conn) (username peerId : jsval)
  | OpLeave (conn : Conn) (path : LeavePath).

Definition room_event (roomId : jsval) (op : RoomOp) : Event :=
  match op with
  | OpJoin conn username peerId =>
      WsMessage conn (join_room_frame roomId username peerId)
  | OpLeave conn path => leave_event conn path
  end.

Definition room_run (roomId : jsval) (eops : list (Env * RoomOp))
    (st : State) : State * list Send :=
  run ((λ eo, (eo.1, room_event roomId eo.2)) <$> eops) st.

(** Who has joined and not left is read off the sequence of operations
    alone.  A connection leaves, or disconnects, as the username of its
    latest join. *)






(** The specification's sentence read on its own: [u] joined in the course
    of [ops], and the connection that joined as [u] has neither left nor
    disconnected since. *)
Definition joined_and_not_left (ops : list RoomOp) (u : jsval) : Prop :=
  ∃ before conn peerId after,
    ops = before ++ OpJoin conn u peerId :: after
    ∧ ∀ conn' path, OpLeave conn' path ∈ after → clientId conn' ≠ clientId conn.




(** ** A sample session

    The scenario of the specification: a room created by alice for the
    video "v1", which alice joins, and bob after her. *)

Definition demo_env (t : Date) : Env := mkEnv t (λ _, true).

Definition alice : Conn := mkConn "conn-a" 1%nat.
Definition bob : Conn := mkConn "conn-b" 2%nat.

Definition demo_body : jsobject :=
  {[ "username" := VStr "alice"; "videoUrl" := VStr "v1" ]}.

Definition demo_roomId : jsval := VStr "r00m01".

Definition demo_room : Room := mkRoom "r00m01" (VStr "v1") (VStr "alice") 10.

Definition demo_created : State :=
  (step (demo_env 10) (PostRooms "r00m01" (Fields demo_body)) State_new).1.

Definition demo_joined : State :=
  (step (demo_env 20)
     (WsMessage alice (join_room_frame demo_roomId (VStr "alice") (VStr "peer-a")))
     demo_created).1.

Definition demo_ops : list (Env * RoomOp) :=
  [(demo_env 20, OpJoin alice (VStr "alice") (VStr "peer-a"));
   (demo_env 30, OpJoin bob (VStr "bob") (VStr "peer-b"));
   (demo_env 40, OpLeave bob TransportClose)].

(** The sample session with alice and bob both in the room. *)
Definition demo_both : State :=
  (step (demo_env 30)
     (WsMessage bob (join_room_frame demo_roomId (VStr "bob") (VStr "peer-b")))
     demo_joined).1.


(** What happens later in the sample session. *)
Definition demo_later : list (Env * Event) :=
  [(demo_env 30,
    WsMessage bob (join_room_frame demo_roomId (VStr "bob") (VStr "peer-b")));
   (demo_env 40,
    WsMessage bob (chat_message_frame demo_roomId (VStr "bob") (VStr "hi")));
   (demo_env 50,
    WsMessage alice (chat_message_frame demo_roomId (VStr "alice") (VStr "hello")));
   (demo_env 60, WsClose bob)].

(** * More of the program *)

(** ** The store: the user table of MemStorage

    The two fields the user methods touch, [users] and [userId]; no other
    method reads or writes them.  [users] is a [Map] keyed by the numeric
    id, kept in insertion order. *)

Record User : Type := mkUser {
  user_username : string;
  user_password : string;
  user_id : Z;
}.

Global Instance User_eq_dec : EqDecision User.
Proof. solve_decision. Defined.

Record UserTable : Type := mkUserTable {
  users : list (Z * User);
  userId : Z;
}.

(** The constructor. *)
Definition UserTable_new : UserTable := mkUserTable [] 1.

Fixpoint users_get (id : Z) (m : list (Z * User)) : option User :=
  match m with
  | [] => None
  | (k, u) :: m' => if decide (k = id) then Some u else users_get id m'
  end.

Fixpoint users_set (id : Z) (u : User) (m : list (Z * User)) : list (Z * User) :=
  match m with
  | [] => [(id, u)]
  | (k, u') :: m' =>
      if decide (k = id) then (k, u) :: m' else (k, u') :: users_set id u m'
  end.

Definition getUser (id : Z) (t : UserTable) : option User :=
  users_get id (users t).

(** [Array.from(this.users.values()).find(...)]: the first user, in
    insertion order, with the username. *)
Definition getUserByUsername (username : string) (t : UserTable) : option User :=
  head (filter (λ u, user_username u = username) (users t).*2).

Definition createUser (username password : string) (t : UserTable)
    : User * UserTable :=
  let id := userId t in
  let user := mkUser username password id in
  (user, mkUserTable (users_set id user (users t)) (id + 1)).

(** One [createUser] after the other, for a list of username and password
    pairs. *)
Fixpoint createUsers (inputs : list (string * string)) (t : UserTable)
    : list User * UserTable :=
  match inputs with
  | [] => ([], t)
  | (username, password) :: inputs' =>
      let '(user, t1) := createUser username password t in
      let '(rest, t2) := createUsers inputs' t1 in
      (user :: rest, t2)
  end.

(** Every key in use is below the counter. *)
Definition keys_below (t : UserTable) : Prop :=
  Forall (λ ku, ku.1 < userId t) (users t).

(** ** The routes: GET /api/rooms/:roomId *)

Inductive RoomResponse : Type :=
  | RoomData (room : Room) (participants : list Participant)
             (messages : list Message) (playbackState : option PlaybackState)
  | RoomNotFound (message : string).

(** [roomId] is [req.params.roomId], a string.  The [catch] is not
    modelled: no method of [MemStorage] throws. *)
Definition get_room (roomId : string) (st : State) : RoomResponse :=
  match getRoom (VStr roomId) (storage st) with
  | None => RoomNotFound "Room not found"
  | Some room =>
      RoomData room (getParticipants (VStr roomId) (storage st))
        (getMessages (VStr roomId) (storage st))
        (getPlaybackState (VStr roomId) (storage st))
  end.

(** ** The client: the handler lists of the socket module

    [messageHandlers], [connectHandlers] and [disconnectHandlers] are arrays
    of functions, and the three [add...Handler] functions are the same code.
    A function is known by its identity, a number here. *)

Abbreviation handler := nat.

(** [handlers.push(handler)]. *)
Definition addHandler (h : handler) (handlers : list handler) : list handler :=
  handlers ++ [h].

(** [handlers.indexOf(handler)], with [None] for -1. *)
Fixpoint indexOf (h : handler) (handlers : list handler) : option nat :=
  match handlers with
  | [] => None
  | h' :: handlers' =>
      if decide (h' = h) then Some 0%nat else S <$> indexOf h handlers'
  end.

(** The function [add...Handler] returns: it splices the handler out at
    the index [indexOf] finds, if it finds one. *)
Definition removeHandler (h : handler) (handlers : list handler) : list handler :=
  match indexOf h handlers with
  | Some index => delete index handlers
  | None => handlers
  end.

(** ** The client: the message handler of useRoom

    The hook is carried in src/client/src/hooks/useVideo.ts, after useVideo.
    The state of the hook, with its initial values, and the [switch] of the
    handler it registers.  The frame the server serialises is taken as it
    was written: [JSON.parse] gives back the event object, dates as their
    ISO strings. *)

Record RoomView : Type := mkRoomView {
  view_room : option Room;
  view_participants : list Participant;
  view_messages : list Message;
  view_playbackState : option PlaybackState;
}.

Definition RoomView_new : RoomView := mkRoomView None [] [] None.

Definition useRoom_on_message (e : ServerEvent) (v : RoomView) : RoomView :=
  match e with
  | EvJoinRoomSuccess room participants messages =>
      mkRoomView (Some room) participants messages (view_playbackState v)
  | EvChatMessage payload =>
      mkRoomView (view_room v) (view_participants v)
        (view_messages v ++ [payload]) (view_playbackState v)
  | EvVideoState payload =>
      mkRoomView (view_room v) (view_participants v) (view_messages v) payload
  | EvNewPeer _ _ => v
  | EvPeerLeft username =>
      mkRoomView (view_room v)
        (filter (λ p, part_username p ≠ username) (view_participants v))
        (view_messages v) (view_playbackState v)
  | EvError _ => v
  end.

(** The events written on socket [w], in the order they were written. *)
Definition delivered (w : socket) (out : list Send) : list ServerEvent :=
  omap (λ se, if decide (se.1 = w) then Some se.2 else None) out.

(** The hook's state once the client behind socket [w] has handled what
    was written on it. *)
Definition view_after (w : socket) (out : list Send) (v : RoomView) : RoomView :=
  foldl (λ v e, useRoom_on_message e v) v (delivered w out).

(** The frames the hook sends: [join_room] goes out without a peer id. *)
Definition useRoom_join_frame (roomId username : string) : Frame :=
  Parsed (VStr "join_room")
    (Fields {[ "roomId" := VStr roomId; "username" := VStr username ]}).

(** ** The client: the message handler of useVideoCall

    The handler of src/unnamed/part_002.  [peerId] is the identifier
    [initializePeer] gave this client.  The result is the call to
    [callPeer] the handler makes, if any: the peer it calls and the
    username it passes along, which is the one of the introduction (the
    variant in src/client/src/hooks/useVideoCall.ts decides alike and passes
    the client's own username). *)
Definition useVideoCall_on_message (peerId : string) (e : ServerEvent)
    : option (jsval * jsval) :=
  match e with
  | EvNewPeer remotePeerId username =>
      if truthy remotePeerId && truthy username
         && bool_decide (remotePeerId ≠ VStr peerId)
      then Some (remotePeerId, username)
      else None
  | _ => None
  end.

(** ** What the further properties speak of *)

(** The system message a leave appends. *)
Definition leave_announcement (env : Env) (client : Client)
    (s : MemStorage) : Message :=
  mkMessage (client_roomId client) (VStr "System")
    (VStr (to_string (client_username client) +:+ " left the room")) "system"
    (messageId s) (now env).

(** The connection an event comes from; room creation comes from none. *)
Definition event_clientId (ev : Event) : option string :=
  match ev with
  | PostRooms _ _ => None
  | WsMessage conn _ => Some (clientId conn)
  | WsClose conn => Some (clientId conn)
  end.

(** Exactly one registry entry holds the socket of [conn], and it is the
    entry of [conn], for room [roomId]. *)
Definition sole_listener (conn : Conn) (roomId : jsval) (st : State) : Prop :=
  ∃ username,
    filter (λ kc, client_ws kc.2 = ws conn) (clients st)
    = [(clientId conn, mkClient (ws conn) roomId username)].

(** An event that leaves the registration of [conn] for [roomId] alone:
    a room creation under another id, anything from a connection with
    another identifier and another socket, and from [conn] itself any frame
    but [join_room] and [leave_room]. *)
Definition keeps_listening (conn : Conn) (roomId : jsval) (ev : Event) : Prop :=
  match ev with
  | PostRooms id _ => VStr id ≠ roomId
  | WsMessage c data =>
      (clientId c ≠ clientId conn ∧ ws c ≠ ws conn)
      ∨ (c = conn
         ∧ ∀ payload, data ≠ Parsed (VStr "join_room") payload
                      ∧ data ≠ Parsed (VStr "leave_room") payload)
  | WsClose c => clientId c ≠ clientId conn ∧ ws c ≠ ws conn
  end.

(** ** What the store keeps

    Every room is filed under its own id and has a participant list, a log
    and a playback state filed under that id. *)
Definition rooms_complete (s : MemStorage) : Prop :=
  ∀ roomId room, rooms s !! roomId = Some room →
    roomId = VStr (room_id room)
    ∧ is_Some (participants s !! roomId)
    ∧ is_Some (messages s !! roomId)
    ∧ ∃ ps, playbackStates s !! roomId = Some ps ∧ pb_roomId ps = roomId.

(** Every message is in the log of its own room, with an id the counter
    has passed, and no id occurs twice in a log. *)
Definition message_ids_ok (s : MemStorage) : Prop :=
  1 ≤ messageId s
  ∧ (∀ roomId m, m ∈ getMessages roomId s →
       msg_roomId m = roomId ∧ 1 ≤ msg_id m < messageId s)
  ∧ (∀ roomId, NoDup (msg_id <$> getMessages roomId s)).

(** What was handled, with the result [r], appended the messages [added]
    to the room's log and had the client behind socket [w] append the same
    messages to its list. *)
Definition relayed (w : socket) (roomId : jsval) (st : State)
    (r : State * list Send) : Prop :=
  ∃ added,
    getMessages roomId (storage r.1) = getMessages roomId (storage st) ++ added
    ∧ ∀ v, view_messages (view_after w r.2 v) = view_messages v ++ added.

(** * Properties *)

(** ** The payload of a well-formed frame *)

Section frames.
Context (a b c : jsval).

Lemma field_roomId_3 k2 k3 :
  k2 ≠ "roomId" → k3 ≠ "roomId" →
  field "roomId" ({[ "roomId" := a; k2 := b; k3 := c ]} : jsobject) = a.
Proof. intros. unfold field. by simplify_map_eq. Qed.

Lemma field_second_3 k2 k3 :
  k2 ≠ "roomId" → k3 ≠ k2 →
  field k2 ({[ "roomId" := a; k2 := b; k3 := c ]} : jsobject) = b.
Proof. intros. unfold field. by simplify_map_eq. Qed.

Lemma field_third_3 k2 k3 :
  k3 ≠ "roomId" → k3 ≠ k2 →
  field k3 ({[ "roomId" := a; k2 := b; k3 := c ]} : jsobject) = c.
Proof. intros. unfold field. by simplify_map_eq. Qed.
End frames.

(** ** The registry as a map *)

Section registry.
Implicit Types (m : Registry) (id : string) (c : Client).

Lemma clients_get_set_eq id c m : clients_get id (clients_set id c m) = Some c.
Proof.
  induction m as [|[k c'] m IH]; simpl.
  - by rewrite decide_True.
  - destruct (decide (k = id)) as [->|Hne]; simpl.
    + by rewrite decide_True.
    + by rewrite decide_False.
Qed.

Lemma clients_get_set_ne id id' c m :
  id ≠ id' → clients_get id' (clients_set id c m) = clients_get id' m.
Proof.
  intros Hne. induction m as [|[k c'] m IH]; simpl.
  - by rewrite decide_False.
  - destruct (decide (k = id)) as [->|Hk]; simpl.
    + by rewrite !decide_False.
    + by rewrite IH.
Qed.

Lemma clients_get_delete_eq id m : clients_get id (clients_delete id m) = None.
Proof.
  unfold clients_delete. induction m as [|[k c'] m IH]; [done|].
  rewrite filter_cons. simpl. destruct (decide (k ≠ id)) as [Hk|Hk]; simpl.
  - by rewrite decide_False.
  - done.
Qed.

Lemma clients_get_delete_ne id id' m :
  id ≠ id' → clients_get id' (clients_delete id m) = clients_get id' m.
Proof.
  intros Hne. unfold clients_delete. induction m as [|[k c'] m IH]; [done|].
  rewrite filter_cons. simpl. destruct (decide (k ≠ id)) as [Hk|Hk]; simpl.
  - by rewrite IH.
  - apply dec_stable in Hk. subst k. by rewrite decide_False.
Qed.

Lemma clients_get_elem_of id c m : clients_get id m = Some c → (id, c) ∈ m.
Proof.
  induction m as [|[k c'] m IH]; simpl; [done|].
  destruct (decide (k = id)) as [->|Hk].
  - intros [= ->]. apply list_elem_of_here.
  - intros H. apply list_elem_of_further. auto.
Qed.
End registry.

(** ** Who a broadcast reaches *)

Lemma filter_fmap_swap {A B} (f : A → B) (P : B → Prop)
    `{!∀ y, Decision (P y)} (l : list A) :
  filter P (f <$> l) = f <$> filter (λ x, P (f x)) l.
Proof.
  induction l as [|x l IH]; [done|].
  rewrite fmap_cons, !filter_cons, IH. by case_decide.
Qed.

Lemma elem_of_members env m roomId w :
  w ∈ members env m roomId ↔
  ∃ id c, (id, c) ∈ m ∧ client_ws c = w ∧ client_roomId c = roomId
          ∧ isOpen env w = true.
Proof.
  unfold members. rewrite list_elem_of_fmap. split.
  - intros [[id c] [-> [[Hr Ho] Hin]%list_elem_of_filter]]. simpl in *. eauto 10.
  - intros (id & c & Hin & <- & Hr & Ho). exists (id, c). split; [done|].
    apply list_elem_of_filter. auto.
Qed.

Lemma broadcastToRoom_filter env m roomId msg excludeClient :
  broadcastToRoom env m roomId msg excludeClient
  = (λ kc, (client_ws kc.2, msg))
      <$> filter (λ kc, receives env roomId excludeClient kc.2 = true) m.
Proof.
  unfold broadcastToRoom.
  induction m as [|[k c] m IH]; [done|].
  rewrite filter_cons. cbn [omap list_omap snd]. rewrite IH.
  destruct (receives env roomId excludeClient c); by case_decide.
Qed.

Lemma receives_all env roomId c :
  receives env roomId None c = true
  ↔ client_roomId c = roomId ∧ isOpen env (client_ws c) = true.
Proof.
  unfold receives. rewrite !andb_true_iff, !bool_decide_eq_true.
  split; [tauto|]. intros [? ?]. by repeat split.
Qed.

Lemma receives_except env roomId sender c :
  receives env roomId (Some sender) c = true
  ↔ (client_roomId c = roomId ∧ isOpen env (client_ws c) = true)
    ∧ client_ws c ≠ sender.
Proof.
  unfold receives. rewrite !andb_true_iff, !bool_decide_eq_true. split.
  - intros [[? Hne] ?]. repeat split; try done. intros Heq. apply Hne.
    by rewrite Heq.
  - intros [[? ?] Hne]. repeat split; try done. intros [= ?]. by apply Hne.
Qed.

Lemma broadcastToRoom_all env m roomId msg :
  broadcastToRoom env m roomId msg None = (λ w, (w, msg)) <$> members env m roomId.
Proof.
  rewrite broadcastToRoom_filter. unfold members. rewrite <- list_fmap_compose.
  f_equal. apply list_filter_iff. intros [k c]. apply receives_all.
Qed.

Lemma broadcastToRoom_except env m roomId msg sender :
  broadcastToRoom env m roomId msg (Some sender)
  = (λ w, (w, msg)) <$> filter (λ w, w ≠ sender) (members env m roomId).
Proof.
  rewrite broadcastToRoom_filter. unfold members.
  rewrite filter_fmap_swap, list_filter_filter. rewrite <- list_fmap_compose.
  f_equal. apply list_filter_iff. intros [k c]. simpl.
  rewrite receives_except. tauto.
Qed.

(** ** What the store's methods do to what its readers return *)

Section storage.
Implicit Types (s : MemStorage) (roomId username : jsval) (t : Date).

Lemma getMessages_addMessage t im s roomId :
  getMessages roomId (addMessage t im s).2
  = if decide (im_roomId im = roomId)
    then getMessages roomId s
         ++ [mkMessage (im_roomId im) (im_username im) (im_content im)
               (im_type im) (messageId s) t]
    else getMessages roomId s.
Proof.
  unfold getMessages, addMessage. simpl. rewrite lookup_insert.
  case_decide; by subst.
Qed.

Lemma getParticipants_addMessage t im s roomId :
  getParticipants roomId (addMessage t im s).2 = getParticipants roomId s.
Proof. reflexivity. Qed.

Lemma getParticipants_addParticipant t roomId' username s roomId :
  getParticipants roomId (addParticipant t roomId' username s).2
  = if decide (roomId' = roomId)
    then getParticipants roomId s
         ++ [mkParticipant roomId' username (participantId s) t]
    else getParticipants roomId s.
Proof.
  unfold getParticipants, addParticipant. simpl. rewrite lookup_insert.
  case_decide; by subst.
Qed.

Lemma getParticipants_removeParticipant roomId' username s roomId :
  getParticipants roomId (removeParticipant roomId' username s)
  = if decide (roomId' = roomId)
    then filter (λ p, part_username p ≠ username) (getParticipants roomId s)
    else getParticipants roomId s.
Proof.
  unfold getParticipants, removeParticipant. simpl. rewrite lookup_insert.
  case_decide; by subst.
Qed.

Lemma getPlaybackState_updatePlaybackState t roomId isPlaying currentTime s :
  getPlaybackState roomId
    (updatePlaybackState t roomId isPlaying currentTime s).2
  = Some (mkPlaybackState roomId isPlaying currentTime t).
Proof. unfold getPlaybackState. simpl. apply lookup_insert_eq. Qed.
End storage.

(** ** The handlers on well-formed frames *)

Lemma on_message_join_room env conn roomId username peerId st :
  on_message env conn (join_room_frame roomId username peerId) st
  = join_room env conn
      {[ "roomId" := roomId; "username" := username; "peerId" := peerId ]} st.
Proof. reflexivity. Qed.

Lemma on_message_chat_message env conn roomId username content st :
  on_message env conn (chat_message_frame roomId username content) st
  = (mkState
       (addMessage (now env) (mkInsertMessage roomId username content "user")
          (storage st)).2
       (clients st),
     broadcastToRoom env (clients st) roomId
       (EvChatMessage (chat_row env roomId username content (storage st))) None).
Proof.
  unfold on_message, chat_message_frame. cbn -[field].
  unfold chat_message.
  rewrite field_roomId_3, field_second_3, field_third_3 by done.
  reflexivity.
Qed.

Lemma on_message_video_state env conn roomId isPlaying currentTime st :
  on_message env conn (video_state_frame roomId isPlaying currentTime) st
  = (mkState
       (updatePlaybackState (now env) roomId isPlaying currentTime (storage st)).2
       (clients st),
     broadcastToRoom env (clients st) roomId
       (EvVideoState
          (Some (mkPlaybackState roomId isPlaying currentTime (now env))))
       (Some (ws conn))).
Proof.
  unfold on_message, video_state_frame. cbn -[field].
  unfold video_state.
  rewrite field_roomId_3, field_second_3, field_third_3 by done.
  reflexivity.
Qed.

Lemma step_leave_event env conn p st :
  step env (leave_event conn p) st = leave env conn st.
Proof. by destruct p. Qed.

(** ** join_room *)

(** On a room that is not in the store, the store is left as it was and the
    caller is sent the one [error] event, but the registry entry written
    before the lookup stays. *)
Lemma join_room_unknown_room env conn roomId username peerId st :
  getRoom roomId (storage st) = None →
  step env (WsMessage conn (join_room_frame roomId username peerId)) st
  = (mkState (storage st)
       (clients_set (clientId conn) (mkClient (ws conn) roomId username)
          (clients st)),
     [(ws conn, EvError "Room not found")]).
Proof.
  intros Hroom. cbn [step]. rewrite on_message_join_room. unfold join_room.
  rewrite field_roomId_3, field_second_3 by done. by rewrite Hroom.
Qed.

(** C1, at a failing input.  On the initial state, a [join_room] for the
    room id "nope" by connection "c1" sends that connection one [error]
    event and leaves the store untouched, yet the connection is recorded in
    the registry under the missing room; when its transport closes later,
    the leave path runs for it and appends a "left the room" message to the
    log of the room that does not exist. *)
Theorem join_room_unknown_room_registers :
  let env := mkEnv 1000 (λ _, true) in
  let conn := mkConn "c1" 1%nat in
  let joined :=
    step env (WsMessage conn (join_room_frame (VStr "nope") (VStr "bob") (VStr "p1")))
      State_new in
  joined.2 = [(1%nat, EvError "Room not found")]
  ∧ storage joined.1 = storage State_new
  ∧ clients State_new = []
  ∧ clients joined.1 = [("c1", mkClient 1%nat (VStr "nope") (VStr "bob"))]
  ∧ getMessages (VStr "nope") (storage (step env (WsClose conn) joined.1).1)
    = [mkMessage (VStr "nope") (VStr "System") (VStr "bob left the room")
         "system" 1 1000].
Proof. repeat split; reflexivity. Qed.

Lemma join_room_existing_room env conn roomId username peerId st room :
  getRoom roomId (storage st) = Some room →
  step env (WsMessage conn (join_room_frame roomId username peerId)) st
  = let announcement := join_announcement env roomId username (storage st) in
    let clients1 :=
      clients_set (clientId conn) (mkClient (ws conn) roomId username) (clients st) in
    (mkState
       (addMessage (now env)
          (mkInsertMessage roomId (VStr "System")
             (VStr (to_string username +:+ " joined the room")) "system")
          (addParticipant (now env) roomId username (storage st)).2).2
       clients1,
     [(ws conn, EvVideoState (getPlaybackState roomId (storage st)))]
     ++ ((λ w, (w, EvChatMessage announcement)) <$> members env clients1 roomId)
     ++ ((λ w, (w, EvNewPeer peerId username))
           <$> filter (λ w, w ≠ ws conn) (members env clients1 roomId))
     ++ [(ws conn,
          EvJoinRoomSuccess room
            (getParticipants roomId (storage st)
               ++ [join_row env roomId username (storage st)])
            (getMessages roomId (storage st) ++ [announcement]))]).
Proof.
  intros Hroom. cbn [step]. rewrite on_message_join_room. unfold join_room.
  rewrite field_roomId_3, field_second_3, field_third_3 by done.
  rewrite Hroom. cbv zeta.
  rewrite <- broadcastToRoom_all, <- broadcastToRoom_except.
  unfold join_announcement, join_row, getParticipants, getMessages,
    getPlaybackState.
  simpl. by rewrite !lookup_insert_eq.
Qed.

Lemma join_room_participants env conn roomId username peerId st room :
  getRoom roomId (storage st) = Some room →
  getParticipants roomId
    (storage (step env (WsMessage conn (join_room_frame roomId username peerId)) st).1)
  = getParticipants roomId (storage st)
    ++ [join_row env roomId username (storage st)].
Proof.
  intros Hroom. rewrite (join_room_existing_room _ _ _ _ _ _ _ Hroom).
  cbn [fst storage].
  rewrite getParticipants_addMessage, getParticipants_addParticipant.
  by rewrite decide_True.
Qed.

Lemma join_room_messages env conn roomId username peerId st room :
  getRoom roomId (storage st) = Some room →
  getMessages roomId
    (storage (step env (WsMessage conn (join_room_frame roomId username peerId)) st).1)
  = getMessages roomId (storage st)
    ++ [join_announcement env roomId username (storage st)].
Proof.
  intros Hroom. rewrite (join_room_existing_room _ _ _ _ _ _ _ Hroom).
  cbn [fst storage]. rewrite getMessages_addMessage. cbn [im_roomId].
  by rewrite decide_True.
Qed.

(** C3.  A [join_room] for a room that exists, from a connection whose
    socket is open, writes in this order: the room's current playback state
    to the joiner; the join announcement to every connected member of the
    room, the joiner among them; [new_peer] to every connected member but
    the joiner; [join_room_success] to the joiner, carrying the room, the
    participant rows and the message log as they stand after the join.  No
    socket is sent the [new_peer] before its copy of the announcement. *)
Theorem join_room_side_effects env conn roomId username peerId st room :
  getRoom roomId (storage st) = Some room →
  isOpen env (ws conn) = true →
  let r := step env (WsMessage conn (join_room_frame roomId username peerId)) st in
  let announcement := join_announcement env roomId username (storage st) in
  let room_members := members env (clients r.1) roomId in
  r.2 = [(ws conn, EvVideoState (getPlaybackState roomId (storage st)))]
        ++ ((λ w, (w, EvChatMessage announcement)) <$> room_members)
        ++ ((λ w, (w, EvNewPeer peerId username))
              <$> filter (λ w, w ≠ ws conn) room_members)
        ++ [(ws conn,
             EvJoinRoomSuccess room (getParticipants roomId (storage r.1))
               (getMessages roomId (storage r.1)))]
  ∧ ws conn ∈ room_members
  ∧ getPlaybackState roomId (storage r.1) = getPlaybackState roomId (storage st)
  ∧ getParticipants roomId (storage r.1)
    = getParticipants roomId (storage st)
      ++ [join_row env roomId username (storage st)]
  ∧ getMessages roomId (storage r.1)
    = getMessages roomId (storage st) ++ [announcement]
  ∧ (∀ i w, r.2 !! i = Some (w, EvNewPeer peerId username) →
       w ≠ ws conn
       ∧ ∃ j, (j < i)%nat ∧ r.2 !! j = Some (w, EvChatMessage announcement)).
Proof.
  intros Hroom Hopen r announcement room_members.
  pose proof (join_room_participants env conn _ username peerId _ _ Hroom) as Hparts.
  pose proof (join_room_messages env conn _ username peerId _ _ Hroom) as Hmsgs.
  fold r in Hparts, Hmsgs. fold announcement in Hmsgs.
  assert (Hout : r.2
    = [(ws conn, EvVideoState (getPlaybackState roomId (storage st)))]
      ++ ((λ w, (w, EvChatMessage announcement)) <$> room_members)
      ++ ((λ w, (w, EvNewPeer peerId username))
            <$> filter (λ w, w ≠ ws conn) room_members)
      ++ [(ws conn,
           EvJoinRoomSuccess room (getParticipants roomId (storage r.1))
             (getMessages roomId (storage r.1)))]).
  { rewrite Hparts, Hmsgs. subst r room_members.
    by rewrite (join_room_existing_room _ _ _ _ _ _ _ Hroom). }
  split; [exact Hout|].
  split; [|split; [|split; [exact Hparts|split; [exact Hmsgs|]]]].
  - subst room_members r. rewrite (join_room_existing_room _ _ _ _ _ _ _ Hroom).
    apply elem_of_members.
    exists (clientId conn), (mkClient (ws conn) roomId username).
    split; [|done]. apply clients_get_elem_of, clients_get_set_eq.
  - subst r. by rewrite (join_room_existing_room _ _ _ _ _ _ _ Hroom).
  - intros i w Hi. rewrite Hout in Hi |- *.
    rewrite lookup_app_Some in Hi. destruct Hi as [Hi|[Hlen Hi]].
    { apply list_lookup_singleton_Some in Hi as [_ Heq]. discriminate Heq. }
    rewrite lookup_app_Some in Hi. destruct Hi as [Hi|[Hlen2 Hi]].
    { apply list_lookup_fmap_Some in Hi as (? & Heq & _). discriminate Heq. }
    rewrite lookup_app_Some in Hi. destruct Hi as [Hi|[_ Hi]].
    2:{ apply list_lookup_singleton_Some in Hi as [_ Heq]. discriminate Heq. }
    apply list_lookup_fmap_Some in Hi as (w' & Heq & Hw').
    injection Heq as ->.
    apply list_elem_of_lookup_2 in Hw'.
    apply list_elem_of_filter in Hw' as [Hne Hin].
    split; [done|].
    apply list_elem_of_lookup_1 in Hin as [k Hk].
    exists (S k). split.
    + apply lookup_lt_Some in Hk. rewrite length_fmap in Hlen2.
      simpl in Hlen, Hlen2. lia.
    + simpl. rewrite lookup_app_l.
      * by rewrite list_lookup_fmap, Hk.
      * rewrite length_fmap. by eapply lookup_lt_Some.
Qed.

Lemma join_room_side_effects_witness :
  getRoom demo_roomId (storage demo_joined) = Some demo_room
  ∧ isOpen (demo_env 30) (ws bob) = true
  ∧ let r :=
      step (demo_env 30)
        (WsMessage bob (join_room_frame demo_roomId (VStr "bob") (VStr "peer-b")))
        demo_joined in
    let announcement :=
      join_announcement (demo_env 30) demo_roomId (VStr "bob") (storage demo_joined) in
    let room_members := members (demo_env 30) (clients r.1) demo_roomId in
    r.2 = [(ws bob, EvVideoState (getPlaybackState demo_roomId (storage demo_joined)))]
          ++ ((λ w, (w, EvChatMessage announcement)) <$> room_members)
          ++ ((λ w, (w, EvNewPeer (VStr "peer-b") (VStr "bob")))
                <$> filter (λ w, w ≠ ws bob) room_members)
          ++ [(ws bob,
               EvJoinRoomSuccess demo_room (getParticipants demo_roomId (storage r.1))
                 (getMessages demo_roomId (storage r.1)))]
    ∧ ws bob ∈ room_members
    ∧ getPlaybackState demo_roomId (storage r.1)
      = getPlaybackState demo_roomId (storage demo_joined)
    ∧ getParticipants demo_roomId (storage r.1)
      = getParticipants demo_roomId (storage demo_joined)
        ++ [join_row (demo_env 30) demo_roomId (VStr "bob") (storage demo_joined)]
    ∧ getMessages demo_roomId (storage r.1)
      = getMessages demo_roomId (storage demo_joined) ++ [announcement]
    ∧ (∀ i w, r.2 !! i = Some (w, EvNewPeer (VStr "peer-b") (VStr "bob")) →
         w ≠ ws bob
         ∧ ∃ j, (j < i)%nat ∧ r.2 !! j = Some (w, EvChatMessage announcement)).
Proof.
  split; [reflexivity|]. split; [reflexivity|].
  apply (join_room_side_effects (demo_env 30) bob demo_roomId (VStr "bob")
           (VStr "peer-b") demo_joined demo_room); reflexivity.
Defined.

(** ** video_state *)

(** C2.  Two [video_state] updates for room [roomId], handled one after the
    other for any senders and from any state: afterwards the store's
    playback state of the room is the second payload, stamped with the
    instant of the second update, and each update is sent, once per registry
    entry, to the connected members of the room other than its sender. *)
Theorem video_state_last_writer_wins
    env1 env2 conn1 conn2 roomId isPlaying1 currentTime1 isPlaying2 currentTime2 st :
  let r1 :=
    step env1 (WsMessage conn1 (video_state_frame roomId isPlaying1 currentTime1)) st in
  let r2 :=
    step env2 (WsMessage conn2 (video_state_frame roomId isPlaying2 currentTime2))
      r1.1 in
  getPlaybackState roomId (storage r2.1)
  = Some (mkPlaybackState roomId isPlaying2 currentTime2 (now env2))
  ∧ r1.2
    = (λ w, (w, EvVideoState
                  (Some (mkPlaybackState roomId isPlaying1 currentTime1 (now env1)))))
        <$> filter (λ w, w ≠ ws conn1) (members env1 (clients st) roomId)
  ∧ r2.2
    = (λ w, (w, EvVideoState
                  (Some (mkPlaybackState roomId isPlaying2 currentTime2 (now env2)))))
        <$> filter (λ w, w ≠ ws conn2) (members env2 (clients r1.1) roomId).
Proof.
  intros r1 r2. subst r1 r2. cbn [step].
  rewrite !on_message_video_state. cbn [fst snd storage clients].
  rewrite <- !broadcastToRoom_except.
  split; [|done]. apply getPlaybackState_updatePlaybackState.
Qed.

(** ** Leaving *)


Lemma leave_unregistered env conn st :
  clients_get (clientId conn) (clients st) = None → leave env conn st = (st, []).
Proof. intros Hget. unfold leave. by rewrite Hget. Qed.

Lemma leave_registered env conn st client :
  clients_get (clientId conn) (clients st) = Some client →
  (leave env conn st).1
  = mkState
      (addMessage (now env)
         (mkInsertMessage (client_roomId client) (VStr "System")
            (VStr (to_string (client_username client) +:+ " left the room"))
            "system")
         (removeParticipant (client_roomId client) (client_username client)
            (storage st))).2
      (clients_delete (clientId conn) (clients st)).
Proof. intros Hget. unfold leave. by rewrite Hget. Qed.

Lemma leave_unregisters env conn st :
  clients_get (clientId conn) (clients (leave env conn st).1) = None.
Proof.
  destruct (clients_get (clientId conn) (clients st)) as [client|] eqn:Hget.
  - rewrite (leave_registered _ _ _ _ Hget). apply clients_get_delete_eq.
  - by rewrite leave_unregistered.
Qed.

(** Where the guard works: once a leave has run to its end for a
    connection, by either path, another one entered for it, by either path,
    changes neither the store nor the registry and sends nothing. *)
Lemma leave_after_leave_is_noop env1 env2 conn p1 p2 st :
  let st1 := (step env1 (leave_event conn p1) st).1 in
  step env2 (leave_event conn p2) st1 = (st1, []).
Proof.
  intros st1. subst st1. rewrite !step_leave_event.
  apply leave_unregistered, leave_unregisters.
Qed.

(** *** Leaves that overlap *)

(** Served for as many resumptions as its jobs have left, the queue is
    empty: every leave that was entered runs to its end. *)
Lemma run_jobs_drains queue st :
  (run_jobs (sum_list_with resumptions_left queue) queue st).1.2 = [].
Proof.
  remember (sum_list_with resumptions_left queue) as n eqn:Hn.
  revert queue st Hn. induction n as [|n IH]; intros queue st Hn.
  - destruct queue as [|t queue]; [done|]. by destruct t.
  - destruct queue as [|t queue]; [done|]. cbn [run_jobs].
    destruct (leave_resume t st) as [[st1 next] out1] eqn:Hresume.
    specialize (IH (queue ++ option_list next) st1).
    destruct (run_jobs n (queue ++ option_list next) st1) as [[st2 rest] out2].
    cbn [fst snd] in *. apply IH.
    rewrite sum_list_with_app.
    destruct t; simpl in Hresume; simplify_eq; simpl in *; lia.
Qed.

(** A leave entered alone in its turn is [leave]: the body run in one
    piece. *)
Lemma leave_turn_alone env conn st :
  leave_turn [(env, conn)] st = leave env conn st.
Proof.
  unfold leave_turn, leave, leave_enter_all, leave_enter.
  destruct (clients_get (clientId conn) (clients st)) as [client|];
    [|by destruct st].
  cbn. by rewrite !app_nil_r.
Qed.



(** C4, at a failing input.  In the sample session with alice and bob in
    the room, the leave path is entered twice for bob's connection in one
    turn of the event loop, at instants 40 and 41.  Entered alone, the
    leave is the one of [step], after which a further leave does nothing.
    Entered while the first is suspended, the second finds the registry
    entry still there: a second "bob left the room" message, with id 5, is
    appended to the log after the first, and it and a second [peer_left]
    are written to alice. *)
Theorem overlapping_leaves_both_run :
  let once := leave_turn [(demo_env 40, bob)] demo_both in
  let twice := leave_turn [(demo_env 40, bob); (demo_env 41, bob)] demo_both in
  let left1 :=
    mkMessage demo_roomId (VStr "System") (VStr "bob left the room") "system" 4 40 in
  let left2 :=
    mkMessage demo_roomId (VStr "System") (VStr "bob left the room") "system" 5 41 in
  clients demo_both
  = [("conn-a", mkClient 1%nat demo_roomId (VStr "alice"));
     ("conn-b", mkClient 2%nat demo_roomId (VStr "bob"))]
  ∧ once = step (demo_env 40) (WsClose bob) demo_both
  ∧ step (demo_env 41) (WsClose bob) once.1 = (once.1, [])
  ∧ getMessages demo_roomId (storage once.1)
    = getMessages demo_roomId (storage demo_both) ++ [left1]
  ∧ getMessages demo_roomId (storage twice.1)
    = getMessages demo_roomId (storage demo_both) ++ [left1; left2]
  ∧ twice.2
    = once.2 ++ [(ws alice, EvChatMessage left2); (ws alice, EvPeerLeft (VStr "bob"))]
  ∧ clients twice.1 = clients once.1
  ∧ usernames demo_roomId twice.1 = usernames demo_roomId once.1.
Proof.
  cbv zeta. split; [by vm_compute|]. split; [apply leave_turn_alone|]. split.
  { rewrite leave_turn_alone.
    apply (leave_after_leave_is_noop (demo_env 40) (demo_env 41) bob
             TransportClose TransportClose). }
  repeat split; by vm_compute.
Qed.

(** ** chat_message *)

Lemma chat_message_effect env conn roomId username content st :
  let r := step env (WsMessage conn (chat_message_frame roomId username content)) st in
  let m := chat_row env roomId username content (storage st) in
  getMessages roomId (storage r.1) = getMessages roomId (storage st) ++ [m]
  ∧ (∀ roomId', roomId' ≠ roomId →
       getMessages roomId' (storage r.1) = getMessages roomId' (storage st))
  ∧ r.2 = (λ w, (w, EvChatMessage m)) <$> members env (clients st) roomId
  ∧ clients r.1 = clients st.
Proof.
  intros r m. subst r m. cbn [step]. rewrite on_message_chat_message.
  cbn [fst snd storage clients]. rewrite broadcastToRoom_all.
  repeat split.
  - rewrite getMessages_addMessage. simpl. by rewrite decide_True.
  - intros roomId' Hne. rewrite getMessages_addMessage. simpl.
    by rewrite decide_False.
Qed.

(** C7.  A [chat_message] frame from a connection that is registered for
    the room the frame names, its socket open: one message of type "user"
    with the frame's username and content is appended to the log of that
    room and to no other log, and that message is sent to every connected
    member of the room, the sender among them. *)
Theorem chat_message_appends_and_broadcasts
    env conn roomId username content st client :
  clients_get (clientId conn) (clients st) = Some client →
  client_ws client = ws conn →
  client_roomId client = roomId →
  isOpen env (ws conn) = true →
  let r := step env (WsMessage conn (chat_message_frame roomId username content)) st in
  let m := mkMessage roomId username content "user" (messageId (storage st)) (now env) in
  getMessages roomId (storage r.1) = getMessages roomId (storage st) ++ [m]
  ∧ (∀ roomId', roomId' ≠ roomId →
       getMessages roomId' (storage r.1) = getMessages roomId' (storage st))
  ∧ r.2 = (λ w, (w, EvChatMessage m)) <$> members env (clients st) roomId
  ∧ ws conn ∈ members env (clients st) roomId.
Proof.
  intros Hget Hws Hroom Hopen r m.
  destruct (chat_message_effect env conn roomId username content st)
    as (Hlog & Hothers & Hout & _).
  repeat split; try done.
  apply elem_of_members. exists (clientId conn), client.
  split; [by apply clients_get_elem_of|done].
Qed.

Lemma chat_message_appends_and_broadcasts_witness :
  clients_get (clientId alice) (clients demo_joined)
  = Some (mkClient 1%nat demo_roomId (VStr "alice"))
  ∧ isOpen (demo_env 50) (ws alice) = true
  ∧ let r :=
      step (demo_env 50)
        (WsMessage alice (chat_message_frame demo_roomId (VStr "alice") (VStr "hello")))
        demo_joined in
    let m :=
      mkMessage demo_roomId (VStr "alice") (VStr "hello") "user"
        (messageId (storage demo_joined)) (now (demo_env 50)) in
    getMessages demo_roomId (storage r.1)
    = getMessages demo_roomId (storage demo_joined) ++ [m]
    ∧ (∀ roomId', roomId' ≠ demo_roomId →
         getMessages roomId' (storage r.1) = getMessages roomId' (storage demo_joined))
    ∧ r.2 = (λ w, (w, EvChatMessage m))
              <$> members (demo_env 50) (clients demo_joined) demo_roomId
    ∧ ws alice ∈ members (demo_env 50) (clients demo_joined) demo_roomId.
Proof.
  split; [reflexivity|]. split; [reflexivity|].
  apply (chat_message_appends_and_broadcasts (demo_env 50) alice demo_roomId
           (VStr "alice") (VStr "hello") demo_joined
           (mkClient 1%nat demo_roomId (VStr "alice"))); reflexivity.
Defined.

(** ** Frames that are dropped *)

(** C8 as stated fails.  A [chat_message] frame that names the room but
    has neither [username] nor [content] is malformed; handled in the
    sample session after alice has joined, it appends a message without
    username and content to the room's log and sends it to alice. *)
Lemma malformed_chat_message_not_dropped :
  let data := Parsed (VStr "chat_message") (Fields {[ "roomId" := demo_roomId ]}) in
  let r := step (demo_env 50) (WsMessage bob data) demo_joined in
  let m := mkMessage demo_roomId VUndefined VUndefined "user" 3 50 in
  malformed data
  ∧ getMessages demo_roomId (storage r.1)
    = getMessages demo_roomId (storage demo_joined) ++ [m]
  ∧ r.2 = [(ws alice, EvChatMessage m)]
  ∧ r ≠ (demo_joined, []).
Proof.
  split; [|split; [|split]].
  - exists "content". split.
    + unfold required_fields. simpl. rewrite !elem_of_cons. auto.
    + simpl. by intros [? ?].
  - reflexivity.
  - reflexivity.
  - discriminate.
Qed.

(** Likewise a [leave_room] frame whose payload object is empty: the case
    never reads the payload, and alice, who is registered, leaves. *)
Example malformed_leave_room_not_dropped :
  let data := Parsed (VStr "leave_room") (Fields ∅) in
  let r := step (demo_env 50) (WsMessage alice data) demo_joined in
  malformed data
  ∧ clients r.1 = []
  ∧ usernames demo_roomId r.1 = []
  ∧ r.2 = [(ws alice,
            EvChatMessage
              (mkMessage demo_roomId (VStr "System") (VStr "alice left the room")
                 "system" 3 50));
           (ws alice, EvPeerLeft (VStr "alice"))].
Proof.
  split; [|repeat split; reflexivity].
  exists "roomId". split.
  - unfold required_fields. simpl. rewrite !elem_of_cons. auto.
  - simpl. rewrite lookup_empty. by intros [? ?].
Qed.

(** C8, amended.  A frame that does not parse, a [join_room],
    [chat_message] or [video_state] frame without a payload, and a frame
    whose type is not recognized are dropped: the state is unchanged,
    nothing is sent, and whatever is handled next is handled as if the
    frame had not arrived. *)
Theorem dropped_frames env conn data st :
  throws_at_once data ∨ unrecognized data →
  step env (WsMessage conn data) st = (st, [])
  ∧ ∀ evs, run ((env, WsMessage conn data) :: evs) st = run evs st.
Proof.
  intros Hdata.
  assert (Hstep : step env (WsMessage conn data) st = (st, [])).
  { cbn [step]. unfold on_message, on_message_try.
    destruct data as [|type payload]; [done|].
    destruct Hdata as [[-> Htype]|Htype]; simpl in Htype.
    - repeat case_decide; try done. subst type.
      rewrite !elem_of_cons, elem_of_nil in Htype.
      by destruct Htype as [?|[?|[?|?]]].
    - repeat case_decide; try done; subst type; exfalso; apply Htype;
        unfold recognized_types; rewrite !elem_of_cons; auto 10. }
  split; [done|].
  intros evs. cbn [run]. rewrite Hstep. by destruct (run evs st).
Qed.

Lemma chat_message_storage env o st :
  storage (chat_message env o st).1
  = (addMessage (now env)
       (mkInsertMessage (field "roomId" o) (field "username" o)
          (field "content" o) "user")
       (storage st)).2.
Proof. reflexivity. Qed.

Lemma video_state_storage env conn o st :
  storage (video_state env conn o st).1
  = (updatePlaybackState (now env) (field "roomId" o) (field "isPlaying" o)
       (field "currentTime" o) (storage st)).2.
Proof. reflexivity. Qed.

(** No other frame is dropped in every state. *)
Lemma frames_not_dropped data :
  ¬ (throws_at_once data ∨ unrecognized data) →
  ∃ env conn st, step env (WsMessage conn data) st ≠ (st, []).
Proof.
  intros Hdata. destruct data as [|type payload].
  { destruct Hdata. by left. }
  assert (Hrec : type ∈ recognized_types).
  { destruct (decide (type ∈ recognized_types)); [done|].
    destruct Hdata. by right. }
  assert (Hpayload : type ≠ VStr "leave_room" → ∃ o, payload = Fields o).
  { intros Hne. destruct payload as [|o]; [|by eexists].
    destruct Hdata. left. split; [done|].
    unfold recognized_types in Hrec. rewrite !elem_of_cons in Hrec.
    rewrite !elem_of_cons.
    destruct Hrec as [?|[?|[?|[?|?]]]]; auto 10; done. }
  exists (mkEnv 0 (λ _, true)), (mkConn "c" 0%nat).
  unfold recognized_types in Hrec. rewrite !elem_of_cons, elem_of_nil in Hrec.
  destruct Hrec as [->|[->|[->|[->|[]]]]].
  - destruct Hpayload as [o ->]; [done|]. exists State_new. discriminate.
  - exists (mkState MemStorage_new [("c", mkClient 0%nat VUndefined VUndefined)]).
    discriminate.
  - destruct Hpayload as [o ->]; [done|]. exists State_new.
    change (chat_message (mkEnv 0 (λ _, true)) o State_new ≠ (State_new, [])).
    intros Heq.
    apply (f_equal (λ r, length (getMessages (field "roomId" o) (storage r.1))))
      in Heq.
    cbn beta in Heq.
    rewrite chat_message_storage, getMessages_addMessage in Heq.
    cbn [im_roomId fst storage State_new] in Heq.
    rewrite decide_True, length_app in Heq by done. simpl in Heq. lia.
  - destruct Hpayload as [o ->]; [done|]. exists State_new.
    change (video_state (mkEnv 0 (λ _, true)) (mkConn "c" 0%nat) o State_new
            ≠ (State_new, [])).
    intros Heq.
    apply (f_equal (λ r, getPlaybackState (field "roomId" o) (storage r.1))) in Heq.
    cbn beta in Heq.
    rewrite video_state_storage, getPlaybackState_updatePlaybackState in Heq.
    discriminate Heq.
Qed.

Lemma dropped_frames_witness :
  (throws_at_once Unparsable ∨ unrecognized Unparsable)
  ∧ step (demo_env 50) (WsMessage alice Unparsable) demo_joined = (demo_joined, [])
  ∧ ∀ evs,
      run ((demo_env 50, WsMessage alice Unparsable) :: evs) demo_joined
      = run evs demo_joined.
Proof.
  split; [left; exact I|].
  apply (dropped_frames (demo_env 50) alice Unparsable demo_joined).
  left. exact I.
Defined.

(** ** Mutations keyed by the payload's room id *)

(** C9.  In whatever state a [chat_message] or [video_state] frame
    arrives, and so also when its sender has no registry entry and the
    room it names is not in the store, the message is appended to the log
    kept under the payload's room id and the playback state kept under the
    payload's room id is set; after a [video_state] there is a playback row
    for that id whether or not there was one before. *)
Theorem payload_room_id_is_not_checked
    env conn roomId username content isPlaying currentTime st :
  getMessages roomId
    (storage (step env (WsMessage conn (chat_message_frame roomId username content)) st).1)
  = getMessages roomId (storage st)
    ++ [mkMessage roomId username content "user" (messageId (storage st)) (now env)]
  ∧ getPlaybackState roomId
      (storage
         (step env (WsMessage conn (video_state_frame roomId isPlaying currentTime)) st).1)
    = Some (mkPlaybackState roomId isPlaying currentTime (now env)).
Proof.
  split.
  - apply chat_message_effect.
  - cbn [step]. rewrite on_message_video_state. cbn [fst storage].
    apply getPlaybackState_updatePlaybackState.
Qed.

(** The same on the initial state: nobody is registered, no room exists. *)
Example unregistered_sender_unknown_room :
  let env := mkEnv 1000 (λ _, true) in
  let conn := mkConn "c1" 1%nat in
  let room := VStr "ghost" in
  clients_get "c1" (clients State_new) = None
  ∧ getRoom room (storage State_new) = None
  ∧ getPlaybackState room (storage State_new) = None
  ∧ getMessages room
      (storage
         (step env (WsMessage conn (chat_message_frame room (VStr "eve") (VStr "hi")))
            State_new).1)
    = [mkMessage room (VStr "eve") (VStr "hi") "user" 1 1000]
  ∧ getPlaybackState room
      (storage
         (step env (WsMessage conn (video_state_frame room (VBool true) (VNum 5000)))
            State_new).1)
    = Some (mkPlaybackState room (VBool true) (VNum 5000) 1000).
Proof. repeat split; reflexivity. Qed.

(** ** Room creation *)

Lemma post_rooms_created env id o st :
  truthy (field "username" o) = true →
  truthy (field "videoUrl" o) = true →
  post_rooms env id (Fields o) st
  = (mkState
       (addMessage (now env)
          (mkInsertMessage (VStr id) (VStr "System")
             (VStr (to_string (field "username" o) +:+ " created the room"))
             "system")
          (addParticipant (now env) (VStr id) (field "username" o)
             (createRoom id (now env) (field "videoUrl" o) (field "username" o)
                (storage st)).2).2).2
       (clients st),
     Created id).
Proof. intros Hu Hv. unfold post_rooms. simpl. by rewrite Hu, Hv. Qed.

(** C10.  A room-creation request with a username and a video URL inserts
    a participant row for the host and appends the system message that
    announces the creation, without touching the registry; when the host
    then sends [join_room] for the new room under the same username, the
    room has two participant rows for that username. *)
Theorem host_row_is_duplicated env0 env1 id o conn peerId st :
  truthy (field "username" o) = true →
  truthy (field "videoUrl" o) = true →
  let host := field "username" o in
  let roomId := VStr id in
  let created := (step env0 (PostRooms id (Fields o)) st).1 in
  let joined := (step env1 (WsMessage conn (join_room_frame roomId host peerId)) created).1 in
  (post_rooms env0 id (Fields o) st).2 = Created id
  ∧ clients created = clients st
  ∧ getParticipants roomId (storage created)
    = [mkParticipant roomId host (participantId (storage st)) (now env0)]
  ∧ getMessages roomId (storage created)
    = [mkMessage roomId (VStr "System")
         (VStr (to_string host +:+ " created the room")) "system"
         (messageId (storage st)) (now env0)]
  ∧ getParticipants roomId (storage joined)
    = [mkParticipant roomId host (participantId (storage st)) (now env0);
       mkParticipant roomId host (participantId (storage st) + 1) (now env1)].
Proof.
  intros Hu Hv host roomId created joined.
  assert (Hparts : getParticipants roomId (storage created)
    = [mkParticipant roomId host (participantId (storage st)) (now env0)]).
  { subst created. cbn [step]. rewrite post_rooms_created by done.
    unfold getParticipants. simpl. by rewrite lookup_insert_eq, lookup_insert_eq. }
  assert (Hroom : getRoom roomId (storage created)
    = Some (mkRoom id (field "videoUrl" o) host (now env0))).
  { subst created. cbn [step]. rewrite post_rooms_created by done.
    unfold getRoom. simpl. by rewrite lookup_insert_eq. }
  assert (Hpid : participantId (storage created) = participantId (storage st) + 1).
  { subst created. cbn [step]. by rewrite post_rooms_created. }
  split; [by rewrite post_rooms_created|]. split.
  { subst created. cbn [step]. by rewrite post_rooms_created. }
  split; [done|]. split.
  { subst created. cbn [step]. rewrite post_rooms_created by done.
    unfold getMessages. simpl. by rewrite lookup_insert_eq, lookup_insert_eq. }
  subst joined. rewrite (join_room_participants _ _ _ _ _ _ _ Hroom).
  unfold join_row. by rewrite Hparts, Hpid.
Qed.

Lemma host_row_is_duplicated_witness :
  truthy (field "username" demo_body) = true
  ∧ truthy (field "videoUrl" demo_body) = true
  ∧ getParticipants demo_roomId (storage demo_joined)
    = [mkParticipant demo_roomId (VStr "alice") 1 10;
       mkParticipant demo_roomId (VStr "alice") 2 20].
Proof.
  split; [reflexivity|]. split; [reflexivity|].
  exact (proj2 (proj2 (proj2 (proj2
    (host_row_is_duplicated (demo_env 10) (demo_env 20) "r00m01" demo_body alice
       (VStr "peer-a") State_new eq_refl eq_refl))))).
Defined.

(** ** The message log *)

Lemma appends_addMessage t im s roomId :
  appends_at_most_one t (getMessages roomId s)
    (getMessages roomId (addMessage t im s).2).
Proof.
  rewrite getMessages_addMessage. case_decide; [right|by left]. eauto.
Qed.

Lemma post_rooms_log env id body st roomId :
  messages (storage st) !! VStr id = None →
  appends_at_most_one (now env) (getMessages roomId (storage st))
    (getMessages roomId (storage (post_rooms env id body st).1)).
Proof.
  intros Hfresh. destruct body as [|o]; [by left|].
  destruct (truthy (field "username" o)) eqn:Hu;
    destruct (truthy (field "videoUrl" o)) eqn:Hv;
    try (unfold post_rooms; cbn [destructure]; rewrite Hu, Hv; by left).
  rewrite post_rooms_created by done. cbn [fst storage].
  rewrite getMessages_addMessage. cbn [im_roomId].
  unfold getMessages, addParticipant, createRoom. cbn [snd messages].
  case_decide as Hid.
  - subst roomId. right. rewrite lookup_insert_eq, Hfresh. eauto.
  - left. by rewrite lookup_insert_ne.
Qed.

Lemma join_room_log env conn o st roomId :
  appends_at_most_one (now env) (getMessages roomId (storage st))
    (getMessages roomId (storage (join_room env conn o st).1)).
Proof.
  unfold join_room. destruct (getRoom _ _); [|by left].
  cbn [fst storage]. apply (appends_addMessage _ _ (addParticipant _ _ _ _).2).
Qed.

Lemma leave_log env conn st roomId :
  appends_at_most_one (now env) (getMessages roomId (storage st))
    (getMessages roomId (storage (leave env conn st).1)).
Proof.
  unfold leave. destruct (clients_get _ _); [|by left].
  cbn [fst storage]. apply (appends_addMessage _ _ (removeParticipant _ _ _)).
Qed.

Lemma chat_message_log env o st roomId :
  appends_at_most_one (now env) (getMessages roomId (storage st))
    (getMessages roomId (storage (chat_message env o st).1)).
Proof. unfold chat_message. cbn [fst storage]. apply appends_addMessage. Qed.

Lemma step_log env ev st roomId :
  fresh_id ev st →
  appends_at_most_one (now env) (getMessages roomId (storage st))
    (getMessages roomId (storage (step env ev st).1)).
Proof.
  intros Hfresh. destruct ev as [id body|conn data|conn]; cbn [step fst].
  - by apply post_rooms_log.
  - unfold on_message, on_message_try.
    destruct data as [|type payload]; [by left|].
    repeat case_decide; try (destruct payload as [|o]); cbn; try by left.
    + apply join_room_log.
    + apply leave_log.
    + apply leave_log.
    + apply chat_message_log.
  - apply leave_log.
Qed.

Lemma log_ok_mono t t' times : t ≤ t' → log_ok t times → log_ok t' times.
Proof.
  intros Hle [Hs Hb]. split; [done|].
  eapply Forall_impl; [done|]. simpl. intros. lia.
Qed.

Lemma log_ok_snoc t times : log_ok t times → log_ok t (times ++ [t]).
Proof.
  intros [Hs Hb]. split.
  - induction times as [|a times IH]; simpl.
    + repeat constructor.
    + apply Sorted_inv in Hs as [Hs Hhd]. apply Forall_cons in Hb as [Ha Hb].
      constructor; [auto|].
      destruct times; simpl; constructor; [done|by inversion Hhd].
  - apply Forall_app. split; [done|]. by repeat constructor.
Qed.

Lemma reachable_log_ok t st roomId : reachable t st → log_ok t (log_times roomId st).
Proof.
  induction 1 as [t|t st env ev Hreach IH Hle Hfresh].
  - split; constructor.
  - unfold log_times in *.
    destruct (step_log env ev st roomId Hfresh) as [->|(m & -> & Hm)].
    + by eapply log_ok_mono.
    + rewrite fmap_app. simpl. rewrite Hm. apply log_ok_snoc.
      by eapply log_ok_mono.
Qed.

(** C6.  In a state reached from start-up, with the clock not running
    backwards and fresh room ids, the log of every room, as [getMessages]
    returns it, is in ascending order of timestamp; handling one more event
    either leaves that log as it is or appends one message to its end,
    whose timestamp is no earlier than any in the log, so that every
    message already in the log stays, unchanged and in its place; the log
    afterwards is again in ascending order. *)
Theorem message_log_append_only t st env ev roomId :
  reachable t st → t ≤ now env → fresh_id ev st →
  let log := getMessages roomId (storage st) in
  let log' := getMessages roomId (storage (step env ev st).1) in
  Sorted Z.le (msg_timestamp <$> log)
  ∧ (log' = log
     ∨ ∃ m, log' = log ++ [m]
            ∧ ∀ m', m' ∈ log → msg_timestamp m' ≤ msg_timestamp m)
  ∧ (∀ i m, log !! i = Some m → log' !! i = Some m)
  ∧ Sorted Z.le (msg_timestamp <$> log').
Proof.
  intros Hreach Hle Hfresh log log'.
  pose proof (reachable_log_ok t st roomId Hreach) as [Hsorted Hbound].
  pose proof (reachable_log_ok _ _ roomId
                (reachable_step t st env ev Hreach Hle Hfresh)) as [Hsorted' _].
  split; [done|]. split; [|split; [|done]].
  - destruct (step_log env ev st roomId Hfresh) as [?|(m & ? & Hm)]; [by left|].
    right. exists m. split; [done|]. intros m' Hin. rewrite Hm.
    unfold log_times in Hbound. rewrite Forall_fmap, Forall_forall in Hbound.
    specialize (Hbound m' Hin). simpl in Hbound. lia.
  - intros i m Hi. subst log log'.
    destruct (step_log env ev st roomId Hfresh) as [->|(m0 & -> & _)]; [done|].
    by apply lookup_app_l_Some.
Qed.

Lemma reachable_demo_created : reachable 10 demo_created.
Proof.
  apply (reachable_step 0 State_new (demo_env 10)
           (PostRooms "r00m01" (Fields demo_body))).
  - apply reachable_init.
  - simpl. lia.
  - reflexivity.
Defined.

Lemma message_log_append_only_witness :
  reachable 10 demo_created
  ∧ 10 ≤ now (demo_env 20)
  ∧ fresh_id
      (WsMessage alice (join_room_frame demo_roomId (VStr "alice") (VStr "peer-a")))
      demo_created
  ∧ let log := getMessages demo_roomId (storage demo_created) in
    let log' := getMessages demo_roomId (storage demo_joined) in
    Sorted Z.le (msg_timestamp <$> log)
    ∧ (log' = log
       ∨ ∃ m, log' = log ++ [m]
              ∧ ∀ m', m' ∈ log → msg_timestamp m' ≤ msg_timestamp m)
    ∧ (∀ i m, log !! i = Some m → log' !! i = Some m)
    ∧ Sorted Z.le (msg_timestamp <$> log').
Proof.
  split; [exact reachable_demo_created|]. split; [simpl; lia|].
  split; [exact I|].
  apply (message_log_append_only 10 demo_created (demo_env 20)
           (WsMessage alice
              (join_room_frame demo_roomId (VStr "alice") (VStr "peer-a")))
           demo_roomId).
  - exact reachable_demo_created.
  - simpl. lia.
  - exact I.
Defined.

(** ** Participants *)



(** *** The specification's side *)

Section present.
Implicit Types (ops before after : list RoomOp) (op : RoomOp) (u : jsval).







End present.

(** *** The handlers' side *)








(** The host alone is enough: after bob has joined the new room, and
    nobody else, the room shows alice and bob. *)
Example host_is_listed_without_joining :
  let eops := [(demo_env 20, OpJoin bob (VStr "bob") (VStr "peer-b"))] in
  usernames demo_roomId (room_run demo_roomId eops demo_created).1
  = [VStr "alice"; VStr "bob"]
  ∧ ¬ joined_and_not_left eops.*2 (VStr "alice").
Proof.
  split; [reflexivity|].
  intros (before & conn & peerId & after & Heq & _).
  destruct before as [|? [|? ?]]; discriminate Heq.
Qed.




(** The sample session, run: after alice and bob have joined and bob's
    transport has closed, the room shows the host row and alice's row. *)
Example demo_session_usernames :
  usernames demo_roomId (room_run demo_roomId demo_ops demo_created).1
  = [VStr "alice"; VStr "alice"].
Proof. reflexivity. Qed.

(** * Further properties *)

(** ** The user table *)

Section users.
Implicit Types (t : UserTable) (m : list (Z * User)) (u : User).

Lemma users_get_set_eq id u m : users_get id (users_set id u m) = Some u.
Proof.
  induction m as [|[k u'] m IH]; simpl.
  - by rewrite decide_True.
  - destruct (decide (k = id)) as [->|Hne]; simpl.
    + by rewrite decide_True.
    + by rewrite decide_False.
Qed.

Lemma users_get_set_ne id id' u m :
  id ≠ id' → users_get id' (users_set id u m) = users_get id' m.
Proof.
  intros Hne. induction m as [|[k u'] m IH]; simpl.
  - by rewrite decide_False.
  - destruct (decide (k = id)) as [->|Hk]; simpl.
    + by rewrite !decide_False.
    + by rewrite IH.
Qed.

Lemma users_set_fresh id u m :
  Forall (λ ku, ku.1 < id) m → users_set id u m = m ++ [(id, u)].
Proof.
  induction 1 as [|[k u'] m Hk _ IH]; simpl; [done|].
  simpl in Hk. rewrite decide_False by lia. by rewrite IH.
Qed.

Lemma createUsers_spec inputs t :
  keys_below t →
  let r := createUsers inputs t in
  keys_below r.2
  ∧ userId r.2 = userId t + Z.of_nat (length inputs)
  ∧ users r.2 = users t ++ ((λ u, (user_id u, u)) <$> r.1)
  ∧ user_id <$> r.1 = seqZ (userId t) (Z.of_nat (length inputs))
  ∧ (λ u, (user_username u, user_password u)) <$> r.1 = inputs.
Proof.
  revert t. induction inputs as [|[username password] inputs IH]; intros t Hbelow.
  - simpl. rewrite app_nil_r. repeat split; try done. lia.
  - cbn [createUsers]. set (user := mkUser username password (userId t)).
    assert (Hset : users_set (userId t) user (users t)
                   = users t ++ [(userId t, user)]).
    { by apply users_set_fresh. }
    unfold createUser. fold user. cbv zeta.
    set (t1 := mkUserTable (users_set (userId t) user (users t)) (userId t + 1)).
    assert (Hbelow1 : keys_below t1).
    { unfold keys_below, t1. simpl. rewrite Hset. apply Forall_app. split.
      - eapply Forall_impl; [exact Hbelow|]. simpl. intros. lia.
      - repeat constructor. simpl. lia. }
    destruct (IH t1 Hbelow1) as (Hb & Hid & Husers & Hids & Hin).
    destruct (createUsers inputs t1) as [rest t2] eqn:Hrest.
    cbn [fst snd users userId t1] in *.
    split; [done|]. split; [|split; [|split]].
    + rewrite Hid, length_cons. lia.
    + rewrite Husers, Hset, fmap_cons, <- app_assoc. done.
    + rewrite fmap_cons, Hids, length_cons.
      replace (Z.of_nat (S (length inputs)))
        with (Z.succ (Z.of_nat (length inputs))) by lia.
      rewrite (seqZ_cons (userId t)) by lia. f_equal. f_equal; lia.
    + by rewrite fmap_cons, Hin.
Qed.

Lemma users_get_lookup m u :
  NoDup m.*1 → (user_id u, u) ∈ m → users_get (user_id u) m = Some u.
Proof.
  induction m as [|[k u'] m IH]; simpl; intros Hnd Hin.
  - by apply not_elem_of_nil in Hin.
  - apply NoDup_cons in Hnd as [Hk Hnd].
    apply elem_of_cons in Hin as [[= <- <-]|Hin].
    + by rewrite decide_True.
    + rewrite decide_False; [by apply IH|].
      intros ->. apply Hk. apply list_elem_of_fmap. by exists (user_id u, u).
Qed.

(** X1.  Users created one after the other on a new store get the ids 1,
    2, 3, ... in order, carry the username and password they were created
    with, and each is what [getUser] returns for its id afterwards: no
    later creation overwrites an earlier user. *)
Theorem createUsers_getUser inputs :
  let r := createUsers inputs UserTable_new in
  user_id <$> r.1 = seqZ 1 (Z.of_nat (length inputs))
  ∧ (λ u, (user_username u, user_password u)) <$> r.1 = inputs
  ∧ ∀ u, u ∈ r.1 → getUser (user_id u) r.2 = Some u.
Proof.
  intros r.
  destruct (createUsers_spec inputs UserTable_new) as (_ & _ & Husers & Hids & Hin).
  { constructor. }
  fold r in Husers, Hids, Hin. simpl in Husers, Hids.
  split; [done|]. split; [done|].
  intros u Hu. unfold getUser. rewrite Husers. apply users_get_lookup.
  - rewrite <- list_fmap_compose.
    change (NoDup (user_id <$> r.1)). rewrite Hids. apply NoDup_seqZ.
  - apply list_elem_of_fmap. by exists u.
Qed.

(** X2.  On a store filled that way, [getUserByUsername] returns the user
    created first under the username, and nothing when no user was created
    under it; a username may be taken more than once, and the later users
    are then out of its reach. *)
Theorem getUserByUsername_first inputs username :
  let r := createUsers inputs UserTable_new in
  getUserByUsername username r.2
  = head (filter (λ u, user_username u = username) r.1).
Proof.
  intros r.
  destruct (createUsers_spec inputs UserTable_new) as (_ & _ & Husers & _).
  { constructor. }
  fold r in Husers. simpl in Husers.
  unfold getUserByUsername. rewrite Husers, <- list_fmap_compose.
  by rewrite list_fmap_id.
Qed.
End users.

(** ** Room creation and the room snapshot *)

(** X3.  A room-creation request is answered 201 exactly when its body
    carries a username and a video URL that are both truthy; a request that
    is not leaves the store and the registry as they were, and is answered
    400 when there is a body and 500 when there is none. *)
Theorem post_rooms_validation env id body st :
  let r := post_rooms env id body st in
  (r.2 = Created id
   ↔ ∃ o, body = Fields o ∧ truthy (field "username" o) = true
          ∧ truthy (field "videoUrl" o) = true)
  ∧ (r.2 ≠ Created id →
     r.1 = st
     ∧ r.2 = match body with
             | NoPayload => ServerError "Failed to create room"
             | Fields _ => BadRequest "Username and video URL are required"
             end).
Proof.
  intros r. subst r. destruct body as [|o].
  { simpl. split; [|done]. split; [done|]. by intros (o & ? & _). }
  destruct (truthy (field "username" o)) eqn:Hu;
    destruct (truthy (field "videoUrl" o)) eqn:Hv.
  - rewrite post_rooms_created by done. simpl. split; [|done].
    split; [|done]. intros _. exists o. by rewrite Hu, Hv.
  - unfold post_rooms. cbn [destructure]. rewrite Hu, Hv. simpl.
    split; [|done]. split; [done|]. intros (o' & [= <-] & _ & Hv'). congruence.
  - unfold post_rooms. cbn [destructure]. rewrite Hu, Hv. simpl.
    split; [|done]. split; [done|]. intros (o' & [= <-] & Hu' & _). congruence.
  - unfold post_rooms. cbn [destructure]. rewrite Hu, Hv. simpl.
    split; [|done]. split; [done|]. intros (o' & [= <-] & Hu' & _). congruence.
Qed.

Lemma post_rooms_validation_witness :
  let r := post_rooms (demo_env 10) "r00m02" (Fields ∅) demo_joined in
  r.2 ≠ Created "r00m02"
  ∧ r.1 = demo_joined
  ∧ r.2 = BadRequest "Username and video URL are required".
Proof.
  assert (H : (post_rooms (demo_env 10) "r00m02" (Fields ∅) demo_joined).2
              ≠ Created "r00m02") by discriminate.
  split; [exact H|].
  exact (proj2 (post_rooms_validation (demo_env 10) "r00m02" (Fields ∅) demo_joined) H).
Defined.

(** X4.  Right after a room is created, whatever the store held before,
    the snapshot served for its id is the room with the request's video URL
    and the requester as host, the host as its only participant, the
    creation message as its only message, and a playback state that is
    paused at position 0. *)
Theorem get_room_after_post_rooms env id o st :
  truthy (field "username" o) = true →
  truthy (field "videoUrl" o) = true →
  let host := field "username" o in
  let created := (step env (PostRooms id (Fields o)) st).1 in
  get_room id created
  = RoomData (mkRoom id (field "videoUrl" o) host (now env))
      [mkParticipant (VStr id) host (participantId (storage st)) (now env)]
      [mkMessage (VStr id) (VStr "System")
         (VStr (to_string host +:+ " created the room")) "system"
         (messageId (storage st)) (now env)]
      (Some (mkPlaybackState (VStr id) (VBool false) (VNum 0) (now env))).
Proof.
  intros Hu Hv host created. subst created. cbn [step].
  rewrite post_rooms_created by done. unfold get_room, getRoom. cbn [fst storage].
  unfold addMessage, addParticipant, createRoom, getParticipants, getMessages,
    getPlaybackState.
  cbn [snd rooms participants messages playbackStates im_roomId].
  by rewrite !lookup_insert_eq.
Qed.

Lemma get_room_after_post_rooms_witness :
  truthy (field "username" demo_body) = true
  ∧ truthy (field "videoUrl" demo_body) = true
  ∧ get_room "r00m01" demo_created
    = RoomData demo_room
        [mkParticipant demo_roomId (VStr "alice") 1 10]
        [mkMessage demo_roomId (VStr "System") (VStr "alice created the room")
           "system" 1 10]
        (Some (mkPlaybackState demo_roomId (VBool false) (VNum 0) 10)).
Proof.
  split; [reflexivity|]. split; [reflexivity|].
  exact (get_room_after_post_rooms (demo_env 10) "r00m01" demo_body State_new
           eq_refl eq_refl).
Defined.

(** ** Leaving, in full *)

Lemma leave_registered_step env conn st client :
  clients_get (clientId conn) (clients st) = Some client →
  leave env conn st
  = (mkState
       (addMessage (now env)
          (mkInsertMessage (client_roomId client) (VStr "System")
             (VStr (to_string (client_username client) +:+ " left the room"))
             "system")
          (removeParticipant (client_roomId client) (client_username client)
             (storage st))).2
       (clients_delete (clientId conn) (clients st)),
     ((λ w, (w, EvChatMessage (leave_announcement env client (storage st))))
        <$> members env (clients st) (client_roomId client))
     ++ ((λ w, (w, EvPeerLeft (client_username client)))
           <$> members env (clients st) (client_roomId client))).
Proof.
  intros Hget. unfold leave. rewrite Hget. cbv zeta.
  rewrite <- !broadcastToRoom_all. reflexivity.
Qed.

(** X5.  A leave, by either path, of a connection that is registered:
    every participant row of its room under its username is removed and no
    row of another room; the "left the room" message is appended to the
    room's log; that message and then [peer_left] are written to every
    connected member of the room, the leaver itself among them exactly when
    its socket is still open; and the connection is no longer registered. *)
Theorem leave_side_effects env conn path st client :
  clients_get (clientId conn) (clients st) = Some client →
  let r := step env (leave_event conn path) st in
  let roomId := client_roomId client in
  let username := client_username client in
  let announcement := leave_announcement env client (storage st) in
  let room_members := members env (clients st) roomId in
  r.2 = ((λ w, (w, EvChatMessage announcement)) <$> room_members)
        ++ ((λ w, (w, EvPeerLeft username)) <$> room_members)
  ∧ (client_ws client ∈ room_members ↔ isOpen env (client_ws client) = true)
  ∧ getParticipants roomId (storage r.1)
    = filter (λ p, part_username p ≠ username) (getParticipants roomId (storage st))
  ∧ (∀ roomId', roomId' ≠ roomId →
       getParticipants roomId' (storage r.1) = getParticipants roomId' (storage st))
  ∧ getMessages roomId (storage r.1)
    = getMessages roomId (storage st) ++ [announcement]
  ∧ clients_get (clientId conn) (clients r.1) = None.
Proof.
  intros Hget r roomId username announcement room_members. subst r.
  rewrite step_leave_event, (leave_registered_step _ _ _ _ Hget).
  cbn [fst snd storage clients].
  split; [done|]. split; [|split; [|split; [|split]]].
  - subst room_members. rewrite elem_of_members. split.
    + by intros (? & ? & _ & _ & _ & ?).
    + intros Hopen. exists (clientId conn), client.
      split; [by apply clients_get_elem_of|done].
  - rewrite getParticipants_addMessage, getParticipants_removeParticipant.
    by rewrite decide_True.
  - intros roomId' Hne.
    rewrite getParticipants_addMessage, getParticipants_removeParticipant.
    by rewrite decide_False.
  - rewrite getMessages_addMessage. cbn [im_roomId]. by rewrite decide_True.
  - apply clients_get_delete_eq.
Qed.

Lemma leave_side_effects_witness :
  clients_get (clientId alice) (clients demo_joined)
  = Some (mkClient 1%nat demo_roomId (VStr "alice"))
  ∧ (step (demo_env 50) (leave_event alice TransportClose) demo_joined).2
    = [(1%nat,
        EvChatMessage
          (mkMessage demo_roomId (VStr "System") (VStr "alice left the room")
             "system" 3 50));
       (1%nat, EvPeerLeft (VStr "alice"))].
Proof.
  split; [reflexivity|].
  exact (proj1 (leave_side_effects (demo_env 50) alice TransportClose demo_joined
                  (mkClient 1%nat demo_roomId (VStr "alice")) eq_refl)).
Defined.



(** ** What stays out of reach *)

Lemma post_rooms_clients env id body st :
  clients (post_rooms env id body st).1 = clients st.
Proof.
  destruct body as [|o]; [done|].
  destruct (truthy (field "username" o)) eqn:Hu;
    destruct (truthy (field "videoUrl" o)) eqn:Hv;
    unfold post_rooms; cbn [destructure]; by rewrite Hu, Hv.
Qed.

Lemma join_room_clients env conn o st :
  clients (join_room env conn o st).1
  = clients_set (clientId conn)
      (mkClient (ws conn) (field "roomId" o) (field "username" o)) (clients st).
Proof. unfold join_room. by destruct (getRoom _ _). Qed.

Lemma leave_clients_other env conn st cid :
  clientId conn ≠ cid →
  clients_get cid (clients (leave env conn st).1) = clients_get cid (clients st).
Proof.
  intros Hne.
  destruct (clients_get (clientId conn) (clients st)) as [client|] eqn:Hget.
  - rewrite (leave_registered _ _ _ _ Hget). by apply clients_get_delete_ne.
  - by rewrite leave_unregistered.
Qed.

(** X7.  Whatever event is handled, the registry entry of every connection
    other than the one the event comes from is afterwards what it was
    before; a room creation changes no entry at all. *)
Theorem registry_of_others_untouched env ev st cid :
  event_clientId ev ≠ Some cid →
  clients_get cid (clients (step env ev st).1) = clients_get cid (clients st).
Proof.
  intros Hother. destruct ev as [id body|conn data|conn]; cbn [step fst].
  - by rewrite post_rooms_clients.
  - assert (Hne : clientId conn ≠ cid) by (by intros <-).
    unfold on_message, on_message_try.
    destruct data as [|type payload]; [done|].
    repeat case_decide; try (destruct payload as [|o]);
      cbn -[join_room leave chat_message video_state]; try done.
    + rewrite join_room_clients. by apply clients_get_set_ne.
    + by apply leave_clients_other.
    + by apply leave_clients_other.
  - assert (Hne : clientId conn ≠ cid) by (by intros <-).
    by apply leave_clients_other.
Qed.

Lemma registry_of_others_untouched_witness :
  event_clientId
    (WsMessage bob (join_room_frame demo_roomId (VStr "bob") (VStr "peer-b")))
  ≠ Some "conn-a"
  ∧ clients_get "conn-a"
      (clients
         (step (demo_env 30)
            (WsMessage bob (join_room_frame demo_roomId (VStr "bob") (VStr "peer-b")))
            demo_joined).1)
    = clients_get "conn-a" (clients demo_joined).
Proof.
  assert (H : event_clientId
                (WsMessage bob
                   (join_room_frame demo_roomId (VStr "bob") (VStr "peer-b")))
              ≠ Some "conn-a") by discriminate.
  split; [exact H|].
  exact (registry_of_others_untouched (demo_env 30) _ demo_joined "conn-a" H).
Defined.

Lemma elem_of_broadcastToRoom env m roomId msg excludeClient w e :
  (w, e) ∈ broadcastToRoom env m roomId msg excludeClient →
  e = msg ∧ isOpen env w = true
  ∧ ∃ cid c, (cid, c) ∈ m ∧ client_ws c = w ∧ client_roomId c = roomId.
Proof.
  rewrite broadcastToRoom_filter, list_elem_of_fmap.
  intros ([cid c] & [= -> ->] & [Hrec Hin]%list_elem_of_filter).
  simpl in *. unfold receives in Hrec.
  rewrite !andb_true_iff, !bool_decide_eq_true in Hrec.
  destruct Hrec as [[Hroom _] Hopen]. eauto 10.
Qed.

(** X8.  Whatever event is handled, a chat message, be it a user's or a
    join or leave announcement, is written only on sockets that are open
    and that the registry, as it stood before or stands after the event,
    holds for the room the message belongs to: no connection is sent the
    chat of a room it is not registered for. *)
Theorem chat_stays_in_its_room env ev st w m :
  (w, EvChatMessage m) ∈ (step env ev st).2 →
  isOpen env w = true
  ∧ ∃ cid c,
      ((cid, c) ∈ clients st ∨ (cid, c) ∈ clients (step env ev st).1)
      ∧ client_ws c = w ∧ client_roomId c = msg_roomId m.
Proof.
  assert (Hleave : ∀ conn,
    (w, EvChatMessage m) ∈ (leave env conn st).2 →
    isOpen env w = true
    ∧ ∃ cid c, ((cid, c) ∈ clients st ∨ (cid, c) ∈ clients (leave env conn st).1)
               ∧ client_ws c = w ∧ client_roomId c = msg_roomId m).
  { intros conn Hin.
    destruct (clients_get (clientId conn) (clients st)) as [client|] eqn:Hget.
    2:{ rewrite leave_unregistered in Hin by done. by apply not_elem_of_nil in Hin. }
    rewrite (leave_registered_step _ _ _ _ Hget) in Hin. cbn [snd] in Hin.
    rewrite <- !broadcastToRoom_all in Hin.
    apply elem_of_app in Hin as [Hin|Hin];
      apply elem_of_broadcastToRoom in Hin as (Heq & Hopen & cid & c & Hc & Hw & Hr);
      [|discriminate Heq].
    injection Heq as ->. split; [done|]. exists cid, c. auto. }
  destruct ev as [id body|conn data|conn]; cbn [step snd].
  - intros Hin. by apply not_elem_of_nil in Hin.
  - unfold on_message, on_message_try.
    destruct data as [|type payload].
    { intros Hin. by apply not_elem_of_nil in Hin. }
    repeat case_decide; try (destruct payload as [|o]);
      cbn -[join_room leave chat_message video_state];
      try (intros Hin; by apply not_elem_of_nil in Hin); try apply Hleave.
    + unfold join_room. destruct (getRoom _ _) as [room|].
      2:{ cbn [snd]. intros Hin. apply list_elem_of_singleton in Hin.
          discriminate Hin. }
      cbn [addParticipant addMessage fst snd clients].
      rewrite !elem_of_app, !list_elem_of_singleton.
      intros [Hin|[Hin|[Hin|Hin]]]; try discriminate Hin.
      * apply elem_of_broadcastToRoom in Hin
          as (Heq & Hopen & cid & c & Hc & Hw & Hr).
        injection Heq as ->. split; [done|]. exists cid, c. auto.
      * apply elem_of_broadcastToRoom in Hin as (Heq & _). discriminate Heq.
    + unfold chat_message. cbn [addMessage fst snd clients].
      intros Hin. apply elem_of_broadcastToRoom in Hin
        as (Heq & Hopen & cid & c & Hc & Hw & Hr).
      injection Heq as ->. split; [done|]. exists cid, c. auto.
    + unfold video_state. cbn [updatePlaybackState fst snd clients].
      intros Hin. apply elem_of_broadcastToRoom in Hin as (Heq & _).
      discriminate Heq.
  - apply Hleave.
Qed.

Lemma chat_stays_in_its_room_witness :
  let ev :=
    WsMessage bob (chat_message_frame demo_roomId (VStr "bob") (VStr "hi")) in
  let m := mkMessage demo_roomId (VStr "bob") (VStr "hi") "user" 3 50 in
  (1%nat, EvChatMessage m) ∈ (step (demo_env 50) ev demo_joined).2
  ∧ isOpen (demo_env 50) 1%nat = true.
Proof.
  assert (H : (1%nat,
               EvChatMessage
                 (mkMessage demo_roomId (VStr "bob") (VStr "hi") "user" 3 50))
              ∈ (step (demo_env 50)
                   (WsMessage bob
                      (chat_message_frame demo_roomId (VStr "bob") (VStr "hi")))
                   demo_joined).2).
  { apply list_elem_of_here. }
  split; [exact H|].
  exact (proj1 (chat_stays_in_its_room (demo_env 50) _ demo_joined _ _ H)).
Defined.

(** ** What the store keeps *)

(** The store after an event is the store before it, taken through the
    methods the handler calls: a property that every method keeps is kept
    by every event.  [createRoom] need only keep it for a fresh id. *)
Lemma step_storage_ind (P : MemStorage → Prop) env ev st :
  (∀ id t videoUrl hostId s,
     messages s !! VStr id = None → P s → P (createRoom id t videoUrl hostId s).2) →
  (∀ t roomId username s, P s → P (addParticipant t roomId username s).2) →
  (∀ roomId username s, P s → P (removeParticipant roomId username s)) →
  (∀ t im s, P s → P (addMessage t im s).2) →
  (∀ t roomId isPlaying currentTime s,
     P s → P (updatePlaybackState t roomId isPlaying currentTime s).2) →
  fresh_id ev st → P (storage st) → P (storage (step env ev st).1).
Proof.
  intros Hcreate Hadd Hremove Hmsg Hupdate Hfresh HP.
  assert (Hleave : ∀ conn, P (storage (leave env conn st).1)).
  { intros conn.
    destruct (clients_get (clientId conn) (clients st)) as [client|] eqn:Hget.
    - rewrite (leave_registered _ _ _ _ Hget). cbn [storage]. auto.
    - by rewrite leave_unregistered. }
  destruct ev as [id body|conn data|conn]; cbn [step fst].
  - destruct body as [|o]; [done|].
    destruct (truthy (field "username" o)) eqn:Hu;
      destruct (truthy (field "videoUrl" o)) eqn:Hv;
      try (unfold post_rooms; cbn [destructure]; by rewrite Hu, Hv).
    rewrite post_rooms_created by done. cbn [fst storage]. auto.
  - unfold on_message, on_message_try.
    destruct data as [|type payload]; [done|].
    repeat case_decide; try (destruct payload as [|o]);
      cbn -[join_room leave chat_message video_state]; try done; try apply Hleave.
    + unfold join_room. destruct (getRoom _ _); [|done].
      cbn [fst storage]. apply (Hmsg _ _ (addParticipant _ _ _ _).2). auto.
    + rewrite chat_message_storage. auto.
    + rewrite video_state_storage. auto.
  - apply Hleave.
Qed.

Section rooms_complete.
Implicit Types (s : MemStorage).

Lemma rooms_complete_createRoom id t videoUrl hostId s :
  rooms_complete s → rooms_complete (createRoom id t videoUrl hostId s).2.
Proof.
  intros Hs roomId room. simpl. rewrite !lookup_insert. case_decide as Hid.
  - intros [= <-]. simpl. subst roomId. repeat split; eauto.
  - apply Hs.
Qed.

Lemma rooms_complete_addParticipant t roomId username s :
  rooms_complete s → rooms_complete (addParticipant t roomId username s).2.
Proof.
  intros Hs roomId' room Hroom. destruct (Hs roomId' room Hroom) as (? & ? & ? & ?).
  repeat split; try done. simpl. rewrite lookup_insert. by case_decide.
Qed.

Lemma rooms_complete_removeParticipant roomId username s :
  rooms_complete s → rooms_complete (removeParticipant roomId username s).
Proof.
  intros Hs roomId' room Hroom. destruct (Hs roomId' room Hroom) as (? & ? & ? & ?).
  repeat split; try done. simpl. rewrite lookup_insert. by case_decide.
Qed.

Lemma rooms_complete_addMessage t im s :
  rooms_complete s → rooms_complete (addMessage t im s).2.
Proof.
  intros Hs roomId' room Hroom. destruct (Hs roomId' room Hroom) as (? & ? & ? & ?).
  repeat split; try done. simpl. rewrite lookup_insert. by case_decide.
Qed.

Lemma rooms_complete_updatePlaybackState t roomId isPlaying currentTime s :
  rooms_complete s →
  rooms_complete (updatePlaybackState t roomId isPlaying currentTime s).2.
Proof.
  intros Hs roomId' room Hroom.
  destruct (Hs roomId' room Hroom) as (? & ? & ? & ps & Hps & Hid).
  repeat split; try done. simpl. rewrite lookup_insert. case_decide; [|eauto].
  subst roomId'. eauto.
Qed.
End rooms_complete.

Lemma rooms_complete_reachable t st : reachable t st → rooms_complete (storage st).
Proof.
  induction 1 as [t|t st env ev Hreach IH Hle Hfresh].
  { intros roomId room Hroom. cbn [State_new MemStorage_new storage rooms] in Hroom.
    by rewrite lookup_empty in Hroom. }
  revert IH.
  apply step_storage_ind;
    auto using rooms_complete_createRoom, rooms_complete_addParticipant,
      rooms_complete_removeParticipant, rooms_complete_addMessage,
      rooms_complete_updatePlaybackState.
Qed.

(** X9.  In every state reached from start-up, a room that [getRoom]
    finds is filed under its own id and has a playback state filed under
    that id; so the first frame a [join_room] for the room writes, the
    playback state for the joiner, is never without a payload. *)
Theorem rooms_have_playback_state t st env conn roomId username peerId room :
  reachable t st →
  getRoom roomId (storage st) = Some room →
  roomId = VStr (room_id room)
  ∧ ∃ ps, getPlaybackState roomId (storage st) = Some ps
          ∧ pb_roomId ps = roomId
          ∧ head (step env (WsMessage conn (join_room_frame roomId username peerId)) st).2
            = Some (ws conn, EvVideoState (Some ps)).
Proof.
  intros Hreach Hroom.
  destruct (rooms_complete_reachable t st Hreach roomId room Hroom)
    as (Hid & _ & _ & ps & Hps & Hpsid).
  split; [done|]. exists ps. split; [done|]. split; [done|].
  rewrite (join_room_existing_room _ _ _ _ _ _ _ Hroom). cbn [snd].
  unfold getPlaybackState. by rewrite Hps.
Qed.

Lemma rooms_have_playback_state_witness :
  reachable 10 demo_created
  ∧ getRoom demo_roomId (storage demo_created) = Some demo_room
  ∧ getPlaybackState demo_roomId (storage demo_created)
    = Some (mkPlaybackState demo_roomId (VBool false) (VNum 0) 10).
Proof.
  split; [exact reachable_demo_created|]. split; [reflexivity|].
  destruct (rooms_have_playback_state 10 demo_created (demo_env 20) alice
              demo_roomId (VStr "alice") (VStr "peer-a") demo_room
              reachable_demo_created eq_refl) as (_ & ps & Hps & _).
  reflexivity.
Defined.

(** X10.  In a state reached from start-up, no event handled next, room
    ids being fresh, replaces or removes a room: what [getRoom] finds for
    an id, with its video URL, host and creation date, it finds afterwards. *)
Theorem rooms_are_immutable t st env ev roomId room :
  reachable t st → fresh_id ev st →
  getRoom roomId (storage st) = Some room →
  getRoom roomId (storage (step env ev st).1) = Some room.
Proof.
  intros Hreach Hfresh Hroom.
  pose proof (rooms_complete_reachable t st Hreach) as Hcomplete.
  cut (rooms_complete (storage (step env ev st).1)
       ∧ getRoom roomId (storage (step env ev st).1) = Some room).
  { by intros [_ ?]. }
  apply (step_storage_ind
           (λ s, rooms_complete s ∧ getRoom roomId s = Some room) env ev st);
    try done.
  - intros id t' videoUrl hostId s Hnone [Hs Hr]. split.
    + by apply rooms_complete_createRoom.
    + unfold getRoom in *. simpl. rewrite lookup_insert_ne; [done|].
      intros <-. destruct (Hs _ _ Hr) as (_ & _ & [? Hm] & _). congruence.
  - intros t' roomId' username s [Hs Hr].
    split; [by apply rooms_complete_addParticipant|done].
  - intros roomId' username s [Hs Hr].
    split; [by apply rooms_complete_removeParticipant|done].
  - intros t' im s [Hs Hr]. split; [by apply rooms_complete_addMessage|done].
  - intros t' roomId' isPlaying currentTime s [Hs Hr].
    split; [by apply rooms_complete_updatePlaybackState|done].
Qed.

Lemma rooms_are_immutable_witness :
  reachable 10 demo_created
  ∧ fresh_id (PostRooms "r00m02" (Fields demo_body)) demo_created
  ∧ getRoom demo_roomId (storage demo_created) = Some demo_room
  ∧ getRoom demo_roomId
      (storage
         (step (demo_env 20) (PostRooms "r00m02" (Fields demo_body)) demo_created).1)
    = Some demo_room.
Proof.
  split; [exact reachable_demo_created|]. split; [reflexivity|].
  split; [reflexivity|].
  exact (rooms_are_immutable 10 demo_created (demo_env 20)
           (PostRooms "r00m02" (Fields demo_body)) demo_roomId demo_room
           reachable_demo_created eq_refl eq_refl).
Defined.

Section message_ids.
Implicit Types (s : MemStorage).

Lemma message_ids_ok_createRoom id t videoUrl hostId s :
  message_ids_ok s → message_ids_ok (createRoom id t videoUrl hostId s).2.
Proof.
  intros (Hpos & Hin & Hnd).
  assert (Hlog : ∀ roomId,
    getMessages roomId (createRoom id t videoUrl hostId s).2
    = if decide (VStr id = roomId) then [] else getMessages roomId s).
  { intros roomId. unfold getMessages. simpl. rewrite lookup_insert.
    by case_decide. }
  split; [done|]. split.
  - intros roomId m. rewrite Hlog. case_decide; [|apply Hin].
    intros Hm. by apply not_elem_of_nil in Hm.
  - intros roomId. rewrite Hlog. case_decide; [constructor|apply Hnd].
Qed.

Lemma message_ids_ok_addMessage t im s :
  message_ids_ok s → message_ids_ok (addMessage t im s).2.
Proof.
  intros (Hpos & Hin & Hnd). split; [simpl; lia|]. split.
  - intros roomId m. rewrite getMessages_addMessage.
    change (messageId (addMessage t im s).2) with (messageId s + 1).
    case_decide as Hr.
    + rewrite elem_of_app, list_elem_of_singleton. intros [Hm| ->].
      * destruct (Hin _ _ Hm). split; [done|lia].
      * simpl. split; [done|lia].
    + intros Hm. destruct (Hin _ _ Hm). split; [done|lia].
  - intros roomId. rewrite getMessages_addMessage. case_decide as Hr; [|apply Hnd].
    rewrite fmap_app. apply NoDup_app. split; [apply Hnd|]. split.
    + intros i Hi Hnew. simpl in Hnew. apply list_elem_of_singleton in Hnew.
      apply list_elem_of_fmap in Hi as (m & -> & Hm).
      destruct (Hin _ _ Hm). lia.
    + simpl. apply NoDup_singleton.
Qed.

Lemma message_ids_ok_reachable t st : reachable t st → message_ids_ok (storage st).
Proof.
  induction 1 as [t|t st env ev Hreach IH Hle Hfresh].
  { split; [done|]. split.
    - intros roomId m Hm. by apply not_elem_of_nil in Hm.
    - intros roomId. constructor. }
  revert IH.
  apply step_storage_ind;
    auto using message_ids_ok_createRoom, message_ids_ok_addMessage.
Qed.
End message_ids.

(** X11.  In every state reached from start-up, a message is in the log of
    the room it names, its id is at least 1 and below the counter, and the
    id tells it from every other message in its log: two messages of a log
    with the same id are the same message, at the same place. *)
Theorem message_ids_identify t st roomId :
  reachable t st →
  (∀ m, m ∈ getMessages roomId (storage st) →
     msg_roomId m = roomId ∧ 1 ≤ msg_id m < messageId (storage st))
  ∧ (∀ i j m m',
       getMessages roomId (storage st) !! i = Some m →
       getMessages roomId (storage st) !! j = Some m' →
       msg_id m = msg_id m' → i = j ∧ m = m').
Proof.
  intros Hreach.
  destruct (message_ids_ok_reachable t st Hreach) as (_ & Hin & Hnd).
  split; [apply Hin|].
  intros i j m m' Hi Hj Heq.
  assert (i = j) as ->.
  { eapply NoDup_lookup; [apply (Hnd roomId)| |].
    - rewrite list_lookup_fmap, Hi. done.
    - rewrite list_lookup_fmap, Hj. simpl. by rewrite Heq. }
  split; [done|]. congruence.
Qed.

Lemma message_ids_identify_witness :
  reachable 10 demo_created
  ∧ ∀ m, m ∈ getMessages demo_roomId (storage demo_created) →
         msg_roomId m = demo_roomId
         ∧ 1 ≤ msg_id m < messageId (storage demo_created).
Proof.
  split; [exact reachable_demo_created|].
  exact (proj1 (message_ids_identify 10 demo_created demo_roomId
                  reachable_demo_created)).
Defined.

(** ** The client's view of the room *)

Section delivery.
Implicit Types (w : socket) (out : list Send) (v : RoomView).

Lemma delivered_app w out1 out2 :
  delivered w (out1 ++ out2) = delivered w out1 ++ delivered w out2.
Proof. unfold delivered. apply omap_app. Qed.

Lemma delivered_other w w' e : w' ≠ w → delivered w [(w', e)] = [].
Proof. intros Hne. unfold delivered. simpl. by rewrite decide_False. Qed.

Lemma delivered_own w e : delivered w [(w, e)] = [e].
Proof. unfold delivered. simpl. by rewrite decide_True. Qed.

Lemma delivered_fmap w e (l : list socket) :
  delivered w ((λ w', (w', e)) <$> l)
  = replicate (length (filter (λ w', w' = w) l)) e.
Proof.
  unfold delivered. induction l as [|w' l IH]; [done|].
  rewrite fmap_cons, filter_cons. cbn [omap list_omap fst snd]. rewrite IH.
  by case_decide.
Qed.

Lemma view_after_app w out1 out2 v :
  view_after w (out1 ++ out2) v = view_after w out2 (view_after w out1 v).
Proof. unfold view_after. by rewrite delivered_app, foldl_app. Qed.

Lemma view_after_nil w v : view_after w [] v = v.
Proof. done. Qed.

(** Chat messages and peer introductions leave all but the message list
    alone. *)
Lemma view_chats n m v :
  foldl (λ v e, useRoom_on_message e v) v (replicate n (EvChatMessage m))
  = mkRoomView (view_room v) (view_participants v)
      (view_messages v ++ replicate n m) (view_playbackState v).
Proof.
  revert v. induction n as [|n IH]; intros v; simpl.
  - rewrite app_nil_r. by destruct v.
  - rewrite IH. simpl. by rewrite <- app_assoc.
Qed.

Lemma view_new_peers n p u v :
  foldl (λ v e, useRoom_on_message e v) v (replicate n (EvNewPeer p u)) = v.
Proof. revert v. induction n as [|n IH]; intros v; simpl; [done|apply IH]. Qed.
End delivery.

(** X12.  Whatever the hook's state was, once the client has handled the
    frames a successful [join_room] of its connection wrote on its socket,
    the hook holds the room, the participant rows, the message log and the
    playback state exactly as the store has them after the join. *)
Theorem useRoom_after_join env conn roomId username peerId st room v :
  getRoom roomId (storage st) = Some room →
  let r := step env (WsMessage conn (join_room_frame roomId username peerId)) st in
  let v' := view_after (ws conn) r.2 v in
  view_room v' = Some room
  ∧ view_participants v' = getParticipants roomId (storage r.1)
  ∧ view_messages v' = getMessages roomId (storage r.1)
  ∧ view_playbackState v' = getPlaybackState roomId (storage r.1).
Proof.
  intros Hroom r v'.
  pose proof (join_room_participants env conn _ username peerId _ _ Hroom) as Hparts.
  pose proof (join_room_messages env conn _ username peerId _ _ Hroom) as Hmsgs.
  assert (Hps : getPlaybackState roomId (storage r.1)
                = getPlaybackState roomId (storage st)).
  { subst r. by rewrite (join_room_existing_room _ _ _ _ _ _ _ Hroom). }
  assert (Hv : v' = mkRoomView (Some room)
                      (getParticipants roomId (storage r.1))
                      (getMessages roomId (storage r.1))
                      (getPlaybackState roomId (storage r.1))).
  { rewrite Hps. subst v' r. rewrite Hparts, Hmsgs.
    rewrite (join_room_existing_room _ _ _ _ _ _ _ Hroom). cbn [snd].
    rewrite !view_after_app. unfold view_after.
    rewrite !delivered_own, !delivered_fmap, view_new_peers, view_chats.
    reflexivity. }
  by rewrite Hv.
Qed.

Lemma useRoom_after_join_witness :
  getRoom demo_roomId (storage demo_created) = Some demo_room
  ∧ view_messages
      (view_after (ws alice)
         (step (demo_env 20)
            (WsMessage alice
               (join_room_frame demo_roomId (VStr "alice") (VStr "peer-a")))
            demo_created).2
         RoomView_new)
    = getMessages demo_roomId (storage demo_joined).
Proof.
  split; [reflexivity|].
  exact (proj1 (proj2 (proj2
    (useRoom_after_join (demo_env 20) alice demo_roomId (VStr "alice")
       (VStr "peer-a") demo_created demo_room RoomView_new eq_refl)))).
Defined.

Section listener.
Context (conn : Conn) (roomId : jsval).
Implicit Types (st : State) (env : Env) (m : Registry).

Lemma sole_members env st roomId' :
  sole_listener conn roomId st → isOpen env (ws conn) = true →
  filter (λ w, w = ws conn) (members env (clients st) roomId')
  = if decide (roomId' = roomId) then [ws conn] else [].
Proof.
  intros [username Hsole] Hopen. unfold members.
  rewrite filter_fmap_swap, list_filter_filter.
  rewrite (list_filter_iff _
    (λ kc, (client_roomId kc.2 = roomId' ∧ isOpen env (client_ws kc.2) = true)
           ∧ client_ws kc.2 = ws conn)) by (intros; tauto).
  rewrite <- list_filter_filter, Hsole, filter_cons, filter_nil. simpl.
  destruct (decide (roomId' = roomId)) as [->|Hne].
  - by rewrite decide_True.
  - rewrite decide_False; [done|]. intros [Heq _]. by apply Hne.
Qed.

Lemma delivered_broadcast_all env st roomId' msg :
  sole_listener conn roomId st → isOpen env (ws conn) = true →
  delivered (ws conn) (broadcastToRoom env (clients st) roomId' msg None)
  = if decide (roomId' = roomId) then [msg] else [].
Proof.
  intros Hsole Hopen.
  rewrite broadcastToRoom_all, delivered_fmap, (sole_members _ _ _ Hsole Hopen).
  by case_decide.
Qed.

Lemma delivered_broadcast_except env st roomId' msg sender :
  sole_listener conn roomId st → isOpen env (ws conn) = true →
  delivered (ws conn)
    (broadcastToRoom env (clients st) roomId' msg (Some sender))
  = if decide (roomId' = roomId ∧ sender ≠ ws conn) then [msg] else [].
Proof.
  intros Hsole Hopen.
  rewrite broadcastToRoom_except, delivered_fmap, list_filter_filter.
  rewrite (list_filter_iff _ (λ w, w ≠ sender ∧ w = ws conn)) by (intros; tauto).
  rewrite <- list_filter_filter, (sole_members _ _ _ Hsole Hopen).
  destruct (decide (roomId' = roomId)) as [Hr|Hr].
  - rewrite filter_cons, filter_nil.
    destruct (decide (ws conn ≠ sender)) as [Hs|Hs].
    + rewrite decide_True; [done|]. split; [done|]. by intros ->.
    + rewrite decide_False; [done|]. intros [_ Hne]. apply Hs. by intros <-.
  - rewrite filter_nil, decide_False; [done|]. tauto.
Qed.

Lemma filter_clients_set (P : string * Client → Prop) `{!∀ kc, Decision (P kc)}
    cid c m :
  ¬ P (cid, c) → (∀ c', (cid, c') ∈ m → ¬ P (cid, c')) →
  filter P (clients_set cid c m) = filter P m.
Proof.
  intros Hnew Hold. induction m as [|[k c'] m IH]; simpl.
  - by rewrite filter_cons_False.
  - case_decide as Hk.
    + subst k. rewrite !filter_cons. rewrite decide_False by done.
      rewrite decide_False; [done|]. apply Hold, list_elem_of_here.
    + rewrite !filter_cons, IH; [done|].
      intros c0 Hc0. apply Hold. by apply list_elem_of_further.
Qed.

Lemma sole_listener_set st s c client :
  sole_listener conn roomId st →
  clientId c ≠ clientId conn → client_ws client ≠ ws conn →
  sole_listener conn roomId
    (mkState s (clients_set (clientId c) client (clients st))).
Proof.
  intros [username Hsole] Hcid Hws. exists username. cbn [clients].
  rewrite filter_clients_set; [done|done|].
  intros c' Hin Hc'. simpl in Hc'.
  assert (Hmem : (clientId c, c')
                 ∈ filter (λ kc, client_ws kc.2 = ws conn) (clients st)).
  { by apply list_elem_of_filter. }
  rewrite Hsole in Hmem. apply list_elem_of_singleton in Hmem. congruence.
Qed.

Lemma sole_listener_delete st s c :
  sole_listener conn roomId st → clientId c ≠ clientId conn →
  sole_listener conn roomId
    (mkState s (clients_delete (clientId c) (clients st))).
Proof.
  intros [username Hsole] Hcid. exists username. cbn [clients].
  unfold clients_delete. rewrite list_filter_filter.
  rewrite (list_filter_iff _
    (λ kc, kc.1 ≠ clientId c ∧ client_ws kc.2 = ws conn)) by (intros; tauto).
  rewrite <- list_filter_filter, Hsole.
  rewrite filter_cons_True; [done|]. simpl. congruence.
Qed.

Lemma sole_listener_same st s :
  sole_listener conn roomId st → sole_listener conn roomId (mkState s (clients st)).
Proof. done. Qed.
End listener.

Lemma join_room_found env c o st room :
  getRoom (field "roomId" o) (storage st) = Some room →
  let roomId := field "roomId" o in
  let username := field "username" o in
  let clients1 :=
    clients_set (clientId c) (mkClient (ws c) roomId username) (clients st) in
  let s2 :=
    (addMessage (now env)
       (mkInsertMessage roomId (VStr "System")
          (VStr (to_string username +:+ " joined the room")) "system")
       (addParticipant (now env) roomId username (storage st)).2).2 in
  join_room env c o st
  = (mkState s2 clients1,
     [(ws c, EvVideoState (getPlaybackState roomId s2))]
     ++ broadcastToRoom env clients1 roomId
          (EvChatMessage (join_announcement env roomId username (storage st))) None
     ++ broadcastToRoom env clients1 roomId
          (EvNewPeer (field "peerId" o) username) (Some (ws c))
     ++ [(ws c,
          EvJoinRoomSuccess room (getParticipants roomId s2)
            (getMessages roomId s2))]).
Proof. intros Hroom. unfold join_room. by rewrite Hroom. Qed.

Section relay.
Context (conn : Conn) (roomId : jsval) (env : Env) (st : State).
Hypothesis Hsole : sole_listener conn roomId st.
Hypothesis Hopen : isOpen env (ws conn) = true.

Lemma relayed_nothing : relayed (ws conn) roomId st (st, []).
Proof. exists []. split; intros; by rewrite app_nil_r. Qed.

Lemma relayed_post_rooms id body :
  VStr id ≠ roomId →
  sole_listener conn roomId (post_rooms env id body st).1
  ∧ relayed (ws conn) roomId st ((post_rooms env id body st).1, []).
Proof.
  intros Hid. split.
  { destruct Hsole as [username Hs]. exists username.
    by rewrite post_rooms_clients. }
  exists []. split; [|intros; by rewrite app_nil_r]. rewrite app_nil_r. cbn [fst].
  destruct body as [|o]; [done|].
  destruct (truthy (field "username" o)) eqn:Hu;
    destruct (truthy (field "videoUrl" o)) eqn:Hv;
    try (unfold post_rooms; cbn [destructure]; by rewrite Hu, Hv).
  rewrite post_rooms_created by done. cbn [fst storage].
  rewrite getMessages_addMessage. cbn [im_roomId]. rewrite decide_False by done.
  unfold getMessages, addParticipant, createRoom. cbn [snd messages].
  by rewrite lookup_insert_ne.
Qed.

Lemma relayed_chat_message o :
  sole_listener conn roomId (chat_message env o st).1
  ∧ relayed (ws conn) roomId st (chat_message env o st).
Proof.
  split; [done|]. unfold relayed. rewrite chat_message_storage.
  exists (if decide (field "roomId" o = roomId)
          then [chat_row env (field "roomId" o) (field "username" o)
                  (field "content" o) (storage st)]
          else []).
  split.
  - rewrite getMessages_addMessage. cbn [im_roomId].
    case_decide; [done|by rewrite app_nil_r].
  - intros v. unfold chat_message, view_after. cbn [addMessage snd].
    rewrite (delivered_broadcast_all _ _ _ _ _ _ Hsole Hopen).
    case_decide; simpl; [done|by rewrite app_nil_r].
Qed.

Lemma relayed_video_state c o :
  sole_listener conn roomId (video_state env c o st).1
  ∧ relayed (ws conn) roomId st (video_state env c o st).
Proof.
  split; [done|]. exists []. split; [by rewrite app_nil_r|].
  intros v. unfold video_state, view_after. cbn [updatePlaybackState snd].
  rewrite (delivered_broadcast_except _ _ _ _ _ _ _ Hsole Hopen).
  case_decide; simpl; by rewrite app_nil_r.
Qed.

Lemma relayed_leave c :
  clientId c ≠ clientId conn →
  sole_listener conn roomId (leave env c st).1
  ∧ relayed (ws conn) roomId st (leave env c st).
Proof.
  intros Hcid.
  destruct (clients_get (clientId c) (clients st)) as [client|] eqn:Hget.
  2:{ rewrite leave_unregistered by done. split; [done|apply relayed_nothing]. }
  split.
  { rewrite (leave_registered _ _ _ _ Hget). by apply sole_listener_delete. }
  unfold relayed. rewrite (leave_registered _ _ _ _ Hget). cbn [storage].
  exists (if decide (client_roomId client = roomId)
          then [leave_announcement env client (storage st)] else []).
  split.
  - rewrite getMessages_addMessage. cbn [im_roomId].
    case_decide; [done|by rewrite app_nil_r].
  - intros v. unfold leave. rewrite Hget. cbv zeta. cbn [addMessage fst snd].
    rewrite view_after_app. unfold view_after.
    rewrite !(delivered_broadcast_all _ _ _ _ _ _ Hsole Hopen).
    case_decide; simpl; [done|by rewrite app_nil_r].
Qed.

Lemma relayed_join_room c o :
  clientId c ≠ clientId conn → ws c ≠ ws conn →
  sole_listener conn roomId (join_room env c o st).1
  ∧ relayed (ws conn) roomId st (join_room env c o st).
Proof.
  intros Hcid Hws.
  assert (Hsole1 : ∀ s, sole_listener conn roomId
    (mkState s
       (clients_set (clientId c)
          (mkClient (ws c) (field "roomId" o) (field "username" o))
          (clients st)))).
  { intros s. by apply sole_listener_set. }
  split.
  { destruct (Hsole1 (storage st)) as [username Hs]. exists username.
    by rewrite join_room_clients. }
  unfold relayed.
  destruct (getRoom (field "roomId" o) (storage st)) as [room|] eqn:Hroom.
  2:{ unfold join_room. rewrite Hroom.
      exists []. split; [by rewrite app_nil_r|].
      intros v. cbn [snd]. unfold view_after.
      rewrite delivered_other by done. simpl. by rewrite app_nil_r. }
  rewrite (join_room_found _ _ _ _ _ Hroom). cbn [fst snd storage].
  exists (if decide (field "roomId" o = roomId)
          then [join_announcement env (field "roomId" o) (field "username" o)
                  (storage st)]
          else []).
  split.
  - rewrite getMessages_addMessage. cbn [im_roomId].
    destruct (decide (field "roomId" o = roomId)); [done|by rewrite app_nil_r].
  - intros v. rewrite !view_after_app. unfold view_after.
    rewrite !delivered_other by done.
    rewrite (delivered_broadcast_all conn roomId env
               (mkState (storage st) _) _ _ (Hsole1 _) Hopen).
    rewrite (delivered_broadcast_except conn roomId env
               (mkState (storage st) _) _ _ _ (Hsole1 _) Hopen).
    destruct (decide (field "roomId" o = roomId)) as [Hr|Hr].
    + rewrite decide_True by done. done.
    + rewrite decide_False by tauto. simpl. by rewrite app_nil_r.
Qed.

(** An event that leaves the registration alone is relayed. *)
Lemma relayed_step ev :
  keeps_listening conn roomId ev →
  sole_listener conn roomId (step env ev st).1
  ∧ relayed (ws conn) roomId st (step env ev st).
Proof.
  intros Hkeeps. destruct ev as [id body|c data|c]; cbn [step].
  - by apply relayed_post_rooms.
  - unfold on_message, on_message_try.
    destruct data as [|type payload]; [split; [done|apply relayed_nothing]|].
    simpl in Hkeeps.
    repeat case_decide; try (destruct payload as [|o]);
      cbn -[join_room leave chat_message video_state];
      try (split; [done|apply relayed_nothing]);
      try apply relayed_chat_message; try apply (relayed_video_state c).
    + destruct Hkeeps as [[? ?]|[_ Hnot]]; [by apply relayed_join_room|].
      subst type. by destruct (Hnot (Fields o)).
    + destruct Hkeeps as [[? ?]|[_ Hnot]]; [by apply relayed_leave|].
      subst type. by destruct (Hnot NoPayload) as [_ ?].
    + destruct Hkeeps as [[? ?]|[_ Hnot]]; [by apply relayed_leave|].
      subst type. by destruct (Hnot (Fields o)) as [_ ?].
  - destruct Hkeeps. by apply relayed_leave.
Qed.
End relay.

(** X13.  A connection is registered for a room, its socket being the
    socket of no other registry entry, and the hook behind it holds the
    room's log.  Then events are handled, each one leaving that registration
    alone (room creations under other ids, anything from other connections,
    and from the connection itself anything but [join_room] and
    [leave_room]), the socket being open throughout.  Once the client has
    handled what was written on its socket, the hook's message list is again
    the room's log as the store has it: every message appended to the log
    was relayed to the client, once, and in order. *)
Theorem useRoom_messages_mirror conn roomId evs st v :
  sole_listener conn roomId st →
  Forall (λ ee, keeps_listening conn roomId ee.2 ∧ isOpen ee.1 (ws conn) = true) evs →
  view_messages v = getMessages roomId (storage st) →
  let r := run evs st in
  view_messages (view_after (ws conn) r.2 v) = getMessages roomId (storage r.1)
  ∧ sole_listener conn roomId r.1.
Proof.
  intros Hsole Hevs. revert st v Hsole.
  induction Hevs as [|[env ev] evs [Hkeeps Hopen] _ IH]; intros st v Hsole Hv.
  { by cbn. }
  cbn [run]. simpl in Hkeeps, Hopen.
  destruct (relayed_step conn roomId env st Hsole Hopen ev Hkeeps)
    as [Hsole1 (added & Hlog & Hview)].
  destruct (step env ev st) as [st1 out1]. cbn [fst snd] in *.
  specialize (IH st1 (view_after (ws conn) out1 v) Hsole1).
  destruct (run evs st1) as [st2 out2]. cbn [fst snd] in *.
  rewrite view_after_app. apply IH. by rewrite Hview, Hlog, Hv.
Qed.

Lemma useRoom_messages_mirror_witness :
  sole_listener alice demo_roomId demo_joined
  ∧ Forall (λ ee, keeps_listening alice demo_roomId ee.2
                  ∧ isOpen ee.1 (ws alice) = true) demo_later
  ∧ length (getMessages demo_roomId (storage (run demo_later demo_joined).1)) = 6%nat
  ∧ view_messages
      (view_after (ws alice) (run demo_later demo_joined).2
         (mkRoomView None [] (getMessages demo_roomId (storage demo_joined)) None))
    = getMessages demo_roomId (storage (run demo_later demo_joined).1).
Proof.
  assert (Hsole : sole_listener alice demo_roomId demo_joined).
  { by exists (VStr "alice"). }
  assert (Hevs : Forall (λ ee, keeps_listening alice demo_roomId ee.2
                               ∧ isOpen ee.1 (ws alice) = true) demo_later).
  { unfold demo_later. repeat apply Forall_cons_2; [| | | |apply Forall_nil_2].
    - split; [left; split; discriminate|reflexivity].
    - split; [left; split; discriminate|reflexivity].
    - split; [right|reflexivity]. split; [reflexivity|].
      intros payload. split; discriminate.
    - split; [split; discriminate|reflexivity]. }
  split; [exact Hsole|]. split; [exact Hevs|]. split; [reflexivity|].
  exact (proj1 (useRoom_messages_mirror alice demo_roomId demo_later demo_joined
                  (mkRoomView None [] (getMessages demo_roomId (storage demo_joined)) None)
                  Hsole Hevs eq_refl)).
Defined.

(** ** Peer introductions at the client *)

Lemma on_message_useRoom_join env conn roomId username st :
  on_message env conn (useRoom_join_frame roomId username) st
  = join_room env conn
      {[ "roomId" := VStr roomId; "username" := VStr username ]} st.
Proof. reflexivity. Qed.

(** X14.  The [join_room] frame the room hook sends carries no peer id; of
    the frames the server writes in answer, to the joiner or to anyone
    else, none makes the video-call hook of its recipient call a peer,
    whatever that recipient's own peer id is. *)
Theorem useRoom_join_never_calls env conn roomId username st peerId w e :
  (w, e) ∈ (step env (WsMessage conn (useRoom_join_frame roomId username)) st).2 →
  useVideoCall_on_message peerId e = None.
Proof.
  cbn [step]. rewrite on_message_useRoom_join.
  destruct (getRoom (field "roomId"
              ({[ "roomId" := VStr roomId; "username" := VStr username ]} : jsobject))
              (storage st)) as [room|] eqn:Hroom.
  - rewrite (join_room_found _ _ _ _ _ Hroom). cbn [snd].
    rewrite !elem_of_app, !list_elem_of_singleton.
    intros [Hin|[Hin|[Hin|Hin]]]; try (by injection Hin as -> ->).
    + by apply elem_of_broadcastToRoom in Hin as (-> & _).
    + by apply elem_of_broadcastToRoom in Hin as (-> & _).
  - unfold join_room. rewrite Hroom. cbn [snd].
    rewrite list_elem_of_singleton. by intros [= -> ->].
Qed.

Lemma useRoom_join_never_calls_witness :
  (ws alice, EvNewPeer VUndefined (VStr "bob"))
  ∈ (step (demo_env 30) (WsMessage bob (useRoom_join_frame "r00m01" "bob"))
       demo_joined).2
  ∧ useVideoCall_on_message "peer-a" (EvNewPeer VUndefined (VStr "bob")) = None.
Proof.
  assert (H : (ws alice, EvNewPeer VUndefined (VStr "bob"))
              ∈ (step (demo_env 30)
                   (WsMessage bob (useRoom_join_frame "r00m01" "bob"))
                   demo_joined).2).
  { do 3 apply list_elem_of_further. apply list_elem_of_here. }
  split; [exact H|].
  exact (useRoom_join_never_calls (demo_env 30) bob "r00m01" "bob" demo_joined
           "peer-a" _ _ H).
Defined.

(** X15.  A [join_room] frame that does carry a peer id, a non-empty
    string, with a truthy username, for a room that exists: every connected
    member of the room other than the joiner is written the introduction,
    on which its video-call hook calls the joiner's peer under the joiner's
    username unless the peer id is its own; and no frame written in answer
    makes any recipient call anything else. *)
Theorem new_peer_calls_the_joiner env conn roomId username joiner st room own :
  getRoom roomId (storage st) = Some room →
  joiner ≠ "" → truthy username = true →
  let r := step env (WsMessage conn (join_room_frame roomId username (VStr joiner))) st in
  (∀ w, w ∈ members env (clients r.1) roomId → w ≠ ws conn →
     (w, EvNewPeer (VStr joiner) username) ∈ r.2)
  ∧ useVideoCall_on_message own (EvNewPeer (VStr joiner) username)
    = (if decide (joiner = own) then None else Some (VStr joiner, username))
  ∧ (∀ w e call, (w, e) ∈ r.2 → useVideoCall_on_message own e = Some call →
       e = EvNewPeer (VStr joiner) username ∧ w ≠ ws conn).
Proof.
  intros Hroom Hjoiner Hname r. subst r.
  rewrite (join_room_existing_room _ _ _ _ _ _ _ Hroom). cbn [fst snd clients].
  split; [|split].
  - intros w Hw Hne. rewrite !elem_of_app. right. right. left.
    apply list_elem_of_fmap. exists w. split; [done|].
    by apply list_elem_of_filter.
  - unfold useVideoCall_on_message. rewrite Hname. simpl.
    destruct (String.eqb_spec joiner "") as [?|_]; [done|]. simpl.
    destruct (decide (joiner = own)) as [->|Hne].
    + rewrite bool_decide_false; [done|]. by intros [].
    + rewrite bool_decide_true; [done|]. by intros [= ?].
  - intros w e call. rewrite !elem_of_app, !list_elem_of_singleton.
    intros [Hin|[Hin|[Hin|Hin]]]; try (by injection Hin as -> ->).
    + apply list_elem_of_fmap in Hin as (? & [= -> ->] & _). done.
    + apply list_elem_of_fmap in Hin as (w' & [= -> ->] & Hw').
      apply list_elem_of_filter in Hw' as [Hne _]. done.
Qed.

Lemma new_peer_calls_the_joiner_witness :
  getRoom demo_roomId (storage demo_joined) = Some demo_room
  ∧ "peer-b" ≠ "" ∧ truthy (VStr "bob") = true
  ∧ useVideoCall_on_message "peer-a" (EvNewPeer (VStr "peer-b") (VStr "bob"))
    = Some (VStr "peer-b", VStr "bob").
Proof.
  assert (Hne : "peer-b" ≠ "") by discriminate.
  split; [reflexivity|]. split; [exact Hne|]. split; [reflexivity|].
  exact (proj1 (proj2
    (new_peer_calls_the_joiner (demo_env 30) bob demo_roomId (VStr "bob") "peer-b"
       demo_joined demo_room "peer-a" eq_refl Hne eq_refl))).
Defined.

(** ** The handler lists of the client's socket module *)

Section handlers.
Implicit Types (h : handler) (l : list handler).

Lemma indexOf_None h l : h ∉ l → indexOf h l = None.
Proof.
  induction l as [|h' l IH]; [done|]. intros Hnot. simpl.
  rewrite not_elem_of_cons in Hnot. destruct Hnot as [Hne Hnot].
  rewrite decide_False by done. by rewrite IH.
Qed.

Lemma indexOf_snoc h l : h ∉ l → indexOf h (l ++ [h]) = Some (length l).
Proof.
  induction l as [|h' l IH]; intros Hnot; simpl.
  - by rewrite decide_True.
  - rewrite not_elem_of_cons in Hnot. destruct Hnot as [Hne Hnot].
    rewrite decide_False by done. by rewrite IH.
Qed.

Lemma elem_of_removeHandler h h' l :
  h' ≠ h → (h' ∈ removeHandler h l ↔ h' ∈ l).
Proof.
  intros Hne. unfold removeHandler. induction l as [|a l IH]; simpl; [done|].
  destruct (decide (a = h)) as [->|Ha]; simpl.
  - rewrite elem_of_cons. split; [auto|]. by intros [?|?].
  - destruct (indexOf h l) as [index|]; simpl in *; [|done].
    by rewrite !elem_of_cons, IH.
Qed.

(** X16.  The function an [add...Handler] call returns undoes that call:
    for a handler that was not in the list, adding it and calling the
    function gives back the list as it was, and calling the function again
    changes nothing.  Whatever the list, it takes out no other handler. *)
Theorem removeHandler_undoes_addHandler h l :
  h ∉ l →
  removeHandler h (addHandler h l) = l
  ∧ removeHandler h (removeHandler h (addHandler h l)) = l
  ∧ ∀ h' l', h' ≠ h → (h' ∈ removeHandler h l' ↔ h' ∈ l').
Proof.
  intros Hnot.
  assert (Hundo : removeHandler h (addHandler h l) = l).
  { unfold removeHandler, addHandler. rewrite indexOf_snoc by done.
    replace (length l) with (length l + 0)%nat by lia.
    induction l as [|a l IH]; [done|]. simpl. f_equal. apply IH.
    rewrite not_elem_of_cons in Hnot. tauto. }
  split; [done|]. split.
  - rewrite Hundo. unfold removeHandler. by rewrite indexOf_None.
  - intros h' l' Hne. by apply elem_of_removeHandler.
Qed.

Lemma removeHandler_undoes_addHandler_witness :
  (7%nat ∉ [3%nat; 5%nat])
  ∧ removeHandler 7 (addHandler 7 [3%nat; 5%nat]) = [3%nat; 5%nat].
Proof.
  assert (H : 7%nat ∉ [3%nat; 5%nat]).
  { rewrite !not_elem_of_cons. repeat split; try discriminate.
    apply not_elem_of_nil. }
  split; [exact H|].
  exact (proj1 (removeHandler_undoes_addHandler 7%nat [3%nat; 5%nat] H)).
Defined.
End handlers.
